(** * dictdiff: the diff pass and the instruction interpreter

    A shallow embedding of [dictdiff/__init__.py] (class [DictDiff]):
    the constructor, the per-key resolution [_ShowRow], the pass
    [_ShowDiff] with its save-or-redo driver [ShowDiff]/[AutoDiff],
    [WasChanged], and the interpreter [ApplyDiff].

    Modelling choices, all read off the source:
    - a dict is a [gmap string value]: keys are strings (the pass takes
      [len(k)] of every key and sorts the keys), dict equality ignores
      order;
    - values are the scalars None, int and str, on which Python's [==] is
      structural equality;
    - an instruction is the tuple [(ACTION, KEY, VALUE)] with ACTION a
      string, as the source builds and indexes it;
    - [input] reads the next line of a finite stdin and raises EOFError
      when there is none;
    - [ApplyDiff] works on a store of dict objects, so that [dict(src)]
      allocates a new object and the later writes go to that object;
    - the [print] calls (title, table rows, review summary) write to
      stdout only and are left out, as is the [justprint] branch of
      [_ShowRow], which no caller in the repository takes. *)

From stdpp Require Import gmap strings list sorting fin_maps fin_sets.

Local Open Scope string_scope.

(** ** Values, dicts, instructions *)

Inductive value : Type :=
  | VNone
  | VInt (n : Z)
  | VStr (s : string).

#[global] Instance value_eq_dec : EqDecision value.
Proof. solve_decision. Defined.

(** Python's [x == y] on scalars. *)
Definition py_eq (x y : value) : bool := bool_decide (x = y).

Abbreviation dict := (gmap string value).

(** [(ACTION, KEY, VALUE)] *)
Abbreviation instruction := (string * string * value)%type.

Definition action (d : instruction) : string := d.1.1.
Definition ikey (d : instruction) : string := d.1.2.

(** ** Exceptions and the state-and-error monad *)

(** The source raises [TypeError] in the constructor and [KeyError]
    everywhere else; the [KeyError]s are told apart by where they are
    raised. [EOFError] is [input] at the end of stdin. [Hang] stands for a
    [while True] loop that can no longer leave. *)
Inductive exn : Type :=
  | TypeError (msg : string)
  | PermissionDenied (msg : string)
  | KeyNotFound (k : string)
  | UnrecognizedInstruction (l : string)
  | UnrecognizedProp (l : string)
  | EOFError
  | Hang.

#[global] Instance exn_eq_dec : EqDecision exn.
Proof. solve_decision. Defined.

Inductive result (A : Type) : Type :=
  | Ok (a : A)
  | Raise (e : exn).
Arguments Ok {A} a.
Arguments Raise {A} e.

Definition is_ok {A} (r : result A) : bool :=
  match r with Ok _ => true | Raise _ => false end.

Definition M (S A : Type) : Type := S → S * result A.

Definition pure {S A} (a : A) : M S A := λ s, (s, Ok a).
Definition raise {S A} (e : exn) : M S A := λ s, (s, Raise e).
Definition bind {S A B} (m : M S A) (f : A → M S B) : M S B :=
  λ s, match m s with
       | (s', Ok a) => f a s'
       | (s', Raise e) => (s', Raise e)
       end.

Declare Scope py_scope.
Delimit Scope py_scope with py.
Notation "x <- m ;; k" := (bind m (λ x, k))
  (at level 100, m at next level, right associativity) : py_scope.
Notation "m ;;; k" := (bind m (λ _, k))
  (at level 100, right associativity) : py_scope.
Local Open Scope py_scope.

(** ** The store of dict objects *)

Abbreviation loc := positive.
Abbreviation heap := (gmap positive (gmap string value)).

(** [dict(src)]: a new object with the contents of [src]. *)
Definition dict_copy (src : loc) : M heap loc := λ h,
  match h !! src with
  | Some d => let l := fresh (dom h) in (<[l := d]> h, Ok l)
  | None => (h, Raise (TypeError "not a dict"))
  end.

(** [ret[k] = v] *)
Definition dict_setitem (l : loc) (k : string) (v : value) : M heap unit := λ h,
  match h !! l with
  | Some d => (<[l := <[k := v]> d]> h, Ok tt)
  | None => (h, Raise (TypeError "not a dict"))
  end.

(** [del ret[k]]: KeyError when [k] is not in the dict. *)
Definition dict_delitem (l : loc) (k : string) : M heap unit := λ h,
  match h !! l with
  | Some d =>
      match d !! k with
      | Some _ => (<[l := delete k d]> h, Ok tt)
      | None => (h, Raise (KeyNotFound k))
      end
  | None => (h, Raise (TypeError "not a dict"))
  end.

(** ** ApplyDiff *)

(** [KeyError("... properties is not allowed")] *)
Definition not_allowed (what : string) : exn :=
  PermissionDenied (what +:+ " properties is not allowed").

Section ApplyDiff.
Variables allowAdd allowDelete allowChange allowKeep : bool.

(** One turn of [for d in diff], on the working copy [ret]. *)
Definition apply_instruction (ret : loc) (d : instruction) : M heap unit :=
  let l := d.1.1 in
  let k := d.1.2 in
  let v := d.2 in
  if String.eqb l "d" then
    if negb allowDelete then raise (not_allowed "Deleting")
    else dict_delitem ret k
  else if String.eqb l "a" then
    if negb allowAdd then raise (not_allowed "Adding")
    else dict_setitem ret k v
  else if String.eqb l "k" then
    if negb allowKeep then raise (not_allowed "Keeping")
    else pure tt
  else if String.eqb l "e" then
    if negb allowChange then raise (not_allowed "Changing")
    else dict_setitem ret k v
  else raise (UnrecognizedInstruction l).

Fixpoint apply_for (ret : loc) (diff : list instruction) : M heap unit :=
  match diff with
  | [] => pure tt
  | d :: diff' => apply_instruction ret d ;;; apply_for ret diff'
  end.

(** [ApplyDiff(src, diff, allowAdd, allowDelete, allowChange, allowKeep)].
    [Ok None] is the bare [return]; [Ok (Some l)] returns the object
    [l]. *)
Definition ApplyDiff (src : loc) (diff : list instruction) : M heap (option loc) :=
  ret <- dict_copy src ;;
  let nochange := forallb (λ d, String.eqb d.1.1 "k") diff in
  if nochange then pure None
  else apply_for ret diff ;;; pure (Some ret).
End ApplyDiff.

(** [WasChanged(props)] *)
Definition WasChanged (props : list instruction) : bool :=
  existsb (λ prop, negb (String.eqb prop.1.1 "k")) props.

(** ** The constructor *)

(** What a caller can pass for [a] or [b]: a scalar (None among them), a
    dict, or a mapping of another type (a dict subclass, say). *)
Inductive pyarg : Type :=
  | ArgValue (v : value)
  | ArgDict (d : gmap string value)
  | ArgMapping (d : gmap string value).

Record DictDiff : Type := MkDictDiff { _a : gmap string value; _b : gmap string value }.

Definition A (self : DictDiff) : gmap string value := _a self.
Definition B (self : DictDiff) : gmap string value := _b self.

(** [if a == None: a = {}] *)
Definition none_to_empty (a : pyarg) : pyarg :=
  match a with
  | ArgValue VNone => ArgDict ∅
  | _ => a
  end.

(** [__init__(self, a=None, b=None)]: an omitted argument is [None]. *)
Definition DictDiff_init (a b : option pyarg) : result DictDiff :=
  let a := none_to_empty (default (ArgValue VNone) a) in
  let b := none_to_empty (default (ArgValue VNone) b) in
  match a with
  | ArgDict da =>
      match b with
      | ArgDict db => Ok (MkDictDiff da db)
      | _ => Raise (TypeError "Second argument, b, is required to be None or a dict")
      end
  | _ => Raise (TypeError "First argument, a, is required to be None or a dict")
  end.

(** ** Resolving one key: [_ShowRow] *)

Definition ascii_lower (c : Ascii.ascii) : Ascii.ascii :=
  let n := Ascii.N_of_ascii c in
  if ((65 <=? n) && (n <=? 90))%N then Ascii.ascii_of_N (n + 32) else c.

(** [which.lower()] *)
Fixpoint lower (s : string) : string :=
  match s with
  | EmptyString => EmptyString
  | String c s' => String (ascii_lower c) (lower s')
  end.

(** [input(prompt)] *)
Definition input : M (list string) string := λ stdin,
  match stdin with
  | [] => ([], Raise EOFError)
  | line :: stdin' => (stdin', Ok line)
  end.

(** What one turn of the [while True] loop of [_ShowRow] does with the
    answer [which]: return a result, ask for the new value and return an
    edit, or fall through to "Unrecognized input" and go round again. *)
Inductive turn : Type :=
  | Return (zz : option instruction)
  | EnterNewValue
  | Unrecognized.

Definition row_turn (k : string) (orig_left orig_right : value)
    (status which : string) : turn :=
  if String.eqb status "Unchanged" then
    if String.eqb (lower which) "c" || (String.length which =? 0)%nat then
      Return (Some ("k", k, orig_left))
    else if String.eqb (lower which) "n" then EnterNewValue
    else if String.eqb (lower which) "d" then Return (Some ("d", k, orig_left))
    else Unrecognized
  else
    if String.eqb (lower which) "l" then
      if String.eqb status "Deleted" then Return (Some ("k", k, orig_left))
      else if String.eqb status "Added" then Return None
      else Return (Some ("k", k, orig_left))
    else if String.eqb (lower which) "r" then
      if String.eqb status "Deleted" then Return (Some ("d", k, orig_right))
      else if String.eqb status "Added" then Return (Some ("a", k, orig_right))
      else Return (Some ("e", k, orig_right))
    else if String.eqb (lower which) "n" then EnterNewValue
    else if String.eqb (lower which) "d" then Return (Some ("d", k, orig_left))
    else Unrecognized.

(** [val = input("Enter new value: "); return ('e', k, val)] *)
Definition enter_new_value (k : string) : M (list string) (option instruction) :=
  val <- input ;; pure (Some ("e", k, VStr val)).

(** The loop when the operator is asked: one line of stdin per turn. *)
Fixpoint row_ask (k : string) (orig_left orig_right : value) (status : string)
    (stdin : list string) : list string * result (option instruction) :=
  match stdin with
  | [] => ([], Raise EOFError)
  | which :: stdin' =>
      match row_turn k orig_left orig_right status which with
      | Return zz => (stdin', Ok zz)
      | EnterNewValue => enter_new_value k stdin'
      | Unrecognized => row_ask k orig_left orig_right status stdin'
      end
  end.

(** The answer [autoaccept] puts in [which]. *)
Definition auto_which (status : string) : string :=
  if String.eqb status "Unchanged" then "c" else "r".

(** [_ShowRow(k, maxkeylen, left, right, status, False, autoaccept)].
    With [autoaccept] the same answer comes back on every turn, so an
    unrecognized one would never leave the loop. *)
Definition _ShowRow (k : string) (maxkeylen : nat) (left right : value)
    (status : string) (autoaccept : bool) : M (list string) (option instruction) :=
  if autoaccept then
    match row_turn k left right status (auto_which status) with
    | Return zz => pure zz
    | EnterNewValue => enter_new_value k
    | Unrecognized => raise Hang
    end
  else row_ask k left right status.

(** ** One pass over all keys: [_ShowDiff] *)

(** [sorted(s)] for a set of str keys: the keys in increasing order, str
    being compared character by character. The keys of a set are
    distinct, so there is one such list. *)
Definition sorted (s : gset string) : list string :=
  merge_sort String.le (elements s).

(** [d[k]]: KeyError when [k] is not in the dict. *)
Definition getitem {S} (d : gmap string value) (k : string) : M S value :=
  match d !! k with
  | Some v => pure v
  | None => raise (KeyNotFound k)
  end.

(** [if zz != None: ret.append(zz)] *)
Definition append_row (ret : list instruction) (zz : option instruction) :
    list instruction :=
  match zz with
  | Some d => ret ++ [d]
  | None => ret
  end.

(** [for k in keys: zz = row(k); if zz != None: ret.append(zz)] *)
Fixpoint for_keys (row : string → M (list string) (option instruction))
    (keys : list string) (ret : list instruction) :
    M (list string) (list instruction) :=
  match keys with
  | [] => pure ret
  | k :: keys' => zz <- row k ;; for_keys row keys' (append_row ret zz)
  end.

Section Pass.
Variables (self : DictDiff) (maxkeylen : nat) (autoaccept : bool).

Definition row_deleted (k : string) : M (list string) (option instruction) :=
  left <- getitem (A self) k ;;
  _ShowRow k maxkeylen left (VStr "") "Deleted" autoaccept.

Definition row_added (k : string) : M (list string) (option instruction) :=
  right <- getitem (B self) k ;;
  _ShowRow k maxkeylen (VStr "") right "Added" autoaccept.

Definition row_common (k : string) : M (list string) (option instruction) :=
  left <- getitem (A self) k ;;
  right <- getitem (B self) k ;;
  let status := if py_eq left right then "Unchanged" else "Different" in
  _ShowRow k maxkeylen left right status autoaccept.
End Pass.

Definition _ShowDiff (self : DictDiff) (title : string) (autoaccept : bool) :
    M (list string) (list instruction) :=
  let a_keys := dom (A self) in
  let b_keys := dom (B self) in
  if (size a_keys =? 0)%nat && (size b_keys =? 0)%nat then pure []
  else
    let common := sorted (a_keys ∩ b_keys) in
    let a_has := sorted (a_keys ∖ b_keys) in
    let b_has := sorted (b_keys ∖ a_keys) in
    let maxkeylen :=
      max_list ((String.length <$> elements a_keys)
                ++ (String.length <$> elements b_keys)) in
    ret <- for_keys (row_deleted self maxkeylen autoaccept) a_has [] ;;
    ret <- for_keys (row_added self maxkeylen autoaccept) b_has ret ;;
    ret <- for_keys (row_common self maxkeylen autoaccept) common ret ;;
    pure ret.

(** ** The save-or-redo driver: [ShowDiff], [AutoDiff] *)

(** The review loop prints one line per instruction and raises on a code
    it does not know. *)
Fixpoint review {S} (ret : list instruction) : M S unit :=
  match ret with
  | [] => pure tt
  | prop :: ret' =>
      let l := prop.1.1 in
      if String.eqb l "a" then review ret'
      else if String.eqb l "d" then review ret'
      else if String.eqb l "k" then review ret'
      else if String.eqb l "e" then review ret'
      else raise (UnrecognizedProp l)
  end.

Inductive decision : Type :=
  | Save
  | Redo.

(** One turn of the inner [while True] loop of [ShowDiff]. *)
Definition outer_turn (which : string) : option decision :=
  if String.eqb which "s" || (String.length which =? 0)%nat then Some Save
  else if String.eqb which "r" then Some Redo
  else None.

Fixpoint save_or_redo_ask (stdin : list string) : list string * result decision :=
  match stdin with
  | [] => ([], Raise EOFError)
  | which :: stdin' =>
      match outer_turn which with
      | Some d => (stdin', Ok d)
      | None => save_or_redo_ask stdin'
      end
  end.

Definition save_or_redo (autoaccept : bool) : M (list string) decision :=
  if autoaccept then
    match outer_turn "s" with
    | Some d => pure d
    | None => raise Hang
    end
  else save_or_redo_ask.

(** The outer [while True] loop, [fuel] passes at most. *)
Fixpoint ShowDiff_loop (fuel : nat) (self : DictDiff) (title : string)
    (autoaccept : bool) : M (list string) (list instruction) :=
  match fuel with
  | O => raise Hang
  | S fuel' =>
      ret <- _ShowDiff self title autoaccept ;;
      review ret ;;;
      d <- save_or_redo autoaccept ;;
      match d with
      | Save => pure ret
      | Redo => ShowDiff_loop fuel' self title autoaccept
      end
  end.

(** [ShowDiff(title, autoaccept)]. Every pass that is redone has read a
    line of stdin, so one pass more than there are lines is enough
    ([ShowDiff_no_Hang] below). *)
Definition ShowDiff (self : DictDiff) (title : string) (autoaccept : bool) :
    M (list string) (list instruction) :=
  λ stdin, ShowDiff_loop (S (length stdin)) self title autoaccept stdin.

(** [AutoDiff(title)] *)
Definition AutoDiff (self : DictDiff) (title : string) :
    M (list string) (list instruction) :=
  ShowDiff self title true.

(** ** The example of the module's self-test *)

Definition ex_a : gmap string value :=
  <["Alice" := VInt 10]> (<["Bob" := VInt 20]> (<["Charlie" := VInt 30]> ∅)).
Definition ex_b : gmap string value :=
  <["Alice" := VInt 15]> (<["Bob" := VInt 20]> (<["David" := VInt 40]> ∅)).
Definition ex_d : DictDiff := MkDictDiff ex_a ex_b.

Definition ex_res : list instruction :=
  [("d", "Charlie", VStr ""); ("a", "David", VInt 40);
   ("e", "Alice", VInt 15); ("k", "Bob", VInt 20)].

(** ** Reading the outcome of a call *)

(** The call returned a dict object whose contents are [d]. *)
Definition returns_dict (out : heap * result (option loc))
    (d : gmap string value) : Prop :=
  ∃ l, out.2 = Ok (Some l) ∧ out.1 !! l = Some d.

(** The call returned the bare [return], i.e. [None]. *)
Definition returns_None (out : heap * result (option loc)) : Prop :=
  out.2 = Ok None.

Definition raises {S A} (out : S * result A) (e : exn) : Prop :=
  out.2 = Raise e.

(** ** The loop of [ApplyDiff] on the contents of the working copy

    [apply_for] changes one object of the store only; these two
    definitions follow its contents. [apply_for_contents] below ties them
    to [apply_for]. *)

Section Contents.
Variables allowAdd allowDelete allowChange allowKeep : bool.

Definition instruction_contents (c : gmap string value) (d : instruction) :
    result (gmap string value) :=
  let l := d.1.1 in
  let k := d.1.2 in
  let v := d.2 in
  if String.eqb l "d" then
    if negb allowDelete then Raise (not_allowed "Deleting")
    else match c !! k with
         | Some _ => Ok (delete k c)
         | None => Raise (KeyNotFound k)
         end
  else if String.eqb l "a" then
    if negb allowAdd then Raise (not_allowed "Adding")
    else Ok (<[k := v]> c)
  else if String.eqb l "k" then
    if negb allowKeep then Raise (not_allowed "Keeping")
    else Ok c
  else if String.eqb l "e" then
    if negb allowChange then Raise (not_allowed "Changing")
    else Ok (<[k := v]> c)
  else Raise (UnrecognizedInstruction l).

Fixpoint for_contents (c : gmap string value) (diff : list instruction) :
    result (gmap string value) :=
  match diff with
  | [] => Ok c
  | d :: diff' =>
      match instruction_contents c d with
      | Ok c' => for_contents c' diff'
      | Raise e => Raise e
      end
  end.
End Contents.

(** ** What the pass emits under [autoaccept] *)

Definition deleted_instruction (k : string) : instruction :=
  ("d", k, VStr "").

Definition added_instruction (b : gmap string value) (k : string) : instruction :=
  ("a", k, default VNone (b !! k)).

Definition common_instruction (a b : gmap string value) (k : string) : instruction :=
  let left := default VNone (a !! k) in
  let right := default VNone (b !! k) in
  if py_eq left right then ("k", k, left) else ("e", k, right).

Definition auto_instructions (a b : gmap string value) : list instruction :=
  (deleted_instruction <$> sorted (dom a ∖ dom b))
  ++ (added_instruction b <$> sorted (dom b ∖ dom a))
  ++ (common_instruction a b <$> sorted (dom a ∩ dom b)).

(** The call raised: a PermissionDenied, or else the error that the same
    call raises with every flag true. *)
Definition raises_denied_or (out out_all : heap * result (option loc)) : Prop :=
  ∃ e, raises out e ∧ ((∃ msg, e = PermissionDenied msg) ∨ raises out_all e).

(** The flag [ApplyDiff] tests before it carries out action [l]. *)
Definition allowed (allowAdd allowDelete allowChange allowKeep : bool)
    (l : string) : bool :=
  if String.eqb l "d" then allowDelete
  else if String.eqb l "a" then allowAdd
  else if String.eqb l "k" then allowKeep
  else if String.eqb l "e" then allowChange
  else true.

(** ** Lists and answers used to state properties *)

(** The same instruction with Add and Edit exchanged. *)
Definition swap_add_edit (d : instruction) : instruction :=
  if String.eqb d.1.1 "a" then ("e", d.1.2, d.2)
  else if String.eqb d.1.1 "e" then ("a", d.1.2, d.2)
  else d.

(** The same instruction without the fields [ApplyDiff] does not read:
    the value of a Delete, the key and the value of a Keep. *)
Definition erase_unused (d : instruction) : instruction :=
  if String.eqb d.1.1 "d" then ("d", d.1.2, VNone)
  else if String.eqb d.1.1 "k" then ("k", "", VNone)
  else d.

(** An argument the constructor takes: omitted, [None], or a dict. *)
Definition none_or_dict (x : option pyarg) : bool :=
  match x with
  | None | Some (ArgValue VNone) | Some (ArgDict _) => true
  | _ => false
  end.

(** The answers an operator gives, row by row, to take the right-hand
    side everywhere: [r] on every deleted, added and different row, [c]
    on every unchanged row. *)
Definition right_answers (a b : gmap string value) : list string :=
  ((λ _, "r") <$> sorted (dom a ∖ dom b))
  ++ ((λ _, "r") <$> sorted (dom b ∖ dom a))
  ++ ((λ k, if py_eq (default VNone (a !! k)) (default VNone (b !! k))
            then "c" else "r") <$> sorted (dom a ∩ dom b)).

(** The answers to keep the left-hand side everywhere: [l] on every
    deleted, added and different row, [c] on every unchanged row. *)
Definition left_answers (a b : gmap string value) : list string :=
  ((λ _, "l") <$> sorted (dom a ∖ dom b))
  ++ ((λ _, "l") <$> sorted (dom b ∖ dom a))
  ++ ((λ k, if py_eq (default VNone (a !! k)) (default VNone (b !! k))
            then "c" else "l") <$> sorted (dom a ∩ dom b)).

(** [('k', k, a[k])] *)
Definition kept_instruction (a : gmap string value) (k : string) : instruction :=
  ("k", k, default VNone (a !! k)).

(** * Properties *)

(** ** The monad *)

Lemma bind_Ok {S A B} (m : M S A) (f : A → M S B) s s' a :
  m s = (s', Ok a) → bind m f s = f a s'.
Proof. intros H. unfold bind. by rewrite H. Qed.

Lemma bind_Raise {S A B} (m : M S A) (f : A → M S B) s s' e :
  m s = (s', Raise e) → bind m f s = (s', Raise e).
Proof. intros H. unfold bind. by rewrite H. Qed.

(** ** [ApplyDiff] and the contents of the working copy *)

Section ApplyDiff_contents.
Variables allowAdd allowDelete allowChange allowKeep : bool.

#[local] Abbreviation apply_instruction' := (apply_instruction allowAdd allowDelete allowChange allowKeep).
#[local] Abbreviation apply_for' := (apply_for allowAdd allowDelete allowChange allowKeep).
#[local] Abbreviation ApplyDiff' := (ApplyDiff allowAdd allowDelete allowChange allowKeep).
#[local] Abbreviation instruction_contents' := (instruction_contents allowAdd allowDelete allowChange allowKeep).
#[local] Abbreviation for_contents' := (for_contents allowAdd allowDelete allowChange allowKeep).

Lemma apply_instruction_contents (h : heap) (l : loc) (c : gmap string value) d :
  h !! l = Some c →
  apply_instruction' l d h =
    match instruction_contents' c d with
    | Ok c' => (<[l := c']> h, Ok tt)
    | Raise e => (h, Raise e)
    end.
Proof.
  intros Hl. unfold apply_instruction, instruction_contents.
  repeat match goal with
         | |- context [String.eqb ?x ?y] => destruct (String.eqb x y)
         | |- context [negb ?b] => destruct b; simpl
         end;
    unfold dict_delitem, dict_setitem, raise, pure; rewrite ?Hl;
    try destruct (c !! d.1.2); try done;
    by rewrite insert_id.
Qed.

Lemma apply_for_contents diff : ∀ (h : heap) (l : loc) (c : gmap string value),
  h !! l = Some c →
  ∃ c', apply_for' l diff h =
          (<[l := c']> h,
           match for_contents' c diff with
           | Ok _ => Ok tt
           | Raise e => Raise e
           end)
        ∧ (∀ c'', for_contents' c diff = Ok c'' → c' = c'').
Proof.
  induction diff as [|d diff IH]; intros h l c Hl; simpl.
  - exists c. split; [|by intros ? [= ->]].
    unfold pure. by rewrite insert_id.
  - unfold bind. rewrite (apply_instruction_contents h l c d Hl).
    destruct (instruction_contents' c d) as [c1|e].
    + destruct (IH (<[l := c1]> h) l c1) as (c' & Heq & Hc').
      { by rewrite lookup_insert_eq. }
      exists c'. rewrite Heq, insert_insert_eq. done.
    + exists c. split; [|done]. by rewrite insert_id.
Qed.

Lemma ApplyDiff_contents (h : heap) (src : loc) (c : gmap string value) diff :
  h !! src = Some c →
  ∃ c', ApplyDiff' src diff h =
          (<[fresh (dom h) := c']> h,
           if forallb (λ d, String.eqb d.1.1 "k") diff then Ok None
           else match for_contents' c diff with
                | Ok _ => Ok (Some (fresh (dom h)))
                | Raise e => Raise e
                end)
        ∧ (∀ c'', for_contents' c diff = Ok c'' → 
             forallb (λ d, String.eqb d.1.1 "k") diff = false → c' = c'').
Proof.
  intros Hsrc. unfold ApplyDiff, bind at 1, dict_copy. rewrite Hsrc. simpl.
  destruct (forallb _ diff) eqn:Hk.
  - exists c. split; [done|]. done.
  - destruct (apply_for_contents diff (<[fresh (dom h) := c]> h) (fresh (dom h)) c)
      as (c' & Heq & Hc'); [by rewrite lookup_insert_eq|].
    exists c'. split; [|by auto].
    unfold bind. rewrite Heq, insert_insert_eq.
    by destruct (for_contents' c diff).
Qed.
End ApplyDiff_contents.

Lemma ApplyDiff_result aA aD aC aK (h : heap) (src : loc) (c : gmap string value) diff :
  h !! src = Some c →
  (ApplyDiff aA aD aC aK src diff h).2 =
    if forallb (λ d, String.eqb d.1.1 "k") diff then Ok None
    else match for_contents aA aD aC aK c diff with
         | Ok _ => Ok (Some (fresh (dom h)))
         | Raise e => Raise e
         end.
Proof.
  intros Hsrc.
  destruct (ApplyDiff_contents aA aD aC aK h src c diff Hsrc) as (c' & -> & _).
  done.
Qed.

Lemma ApplyDiff_frame aA aD aC aK (h : heap) (src l : loc) (c : gmap string value) diff :
  h !! l = Some c → (ApplyDiff aA aD aC aK src diff h).1 !! l = Some c.
Proof.
  intros Hl. destruct (h !! src) as [cs|] eqn:Hsrc.
  - destruct (ApplyDiff_contents aA aD aC aK h src cs diff Hsrc) as (c' & -> & _).
    simpl. rewrite lookup_insert_ne; [done|].
    intros <-. pose proof (is_fresh (dom h)) as Hf.
    apply not_elem_of_dom in Hf. congruence.
  - unfold ApplyDiff, bind, dict_copy. by rewrite Hsrc.
Qed.

Lemma forallb_keep_WasChanged diff :
  forallb (λ d : instruction, String.eqb d.1.1 "k") diff = negb (WasChanged diff).
Proof.
  unfold WasChanged. induction diff as [|d diff IH]; simpl; [done|].
  rewrite IH. by destruct (String.eqb d.1.1 "k").
Qed.

Lemma WasChanged_true diff :
  WasChanged diff = true ↔ ∃ d, d ∈ diff ∧ action d ≠ "k".
Proof.
  unfold WasChanged, action. rewrite existsb_exists. split.
  - intros (d & Hin & Hd). exists d. split; [by apply list_elem_of_In|].
    intros Heq. rewrite Heq in Hd. done.
  - intros (d & Hin & Hd). exists d. split; [by apply list_elem_of_In|].
    destruct (String.eqb_spec d.1.1 "k"); done.
Qed.

Lemma WasChanged_false diff :
  WasChanged diff = false ↔ Forall (λ d, action d = "k") diff.
Proof.
  unfold WasChanged, action. induction diff as [|d diff IH]; simpl.
  - split; [constructor|done].
  - rewrite Forall_cons, <- IH.
    destruct (String.eqb_spec d.1.1 "k"); simpl; [tauto|].
    split; [done|]. by intros [? _].
Qed.

Lemma apply_for_app aA aD aC aK (ret : loc) pre suf (h : heap) :
  apply_for aA aD aC aK ret (pre ++ suf) h =
    bind (apply_for aA aD aC aK ret pre) (λ _, apply_for aA aD aC aK ret suf) h.
Proof.
  revert h. induction pre as [|d pre IH]; intros h; simpl; [done|].
  unfold bind at 1. rewrite (surjective_pairing (apply_instruction _ _ _ _ _ _ _)).
  unfold bind.
  destruct (apply_instruction aA aD aC aK ret d h) as [h' [[]|e]]; simpl; [|done].
  rewrite IH. done.
Qed.

Lemma for_contents_app aA aD aC aK (c : gmap string value) pre suf :
  for_contents aA aD aC aK c (pre ++ suf) =
    match for_contents aA aD aC aK c pre with
    | Ok c' => for_contents aA aD aC aK c' suf
    | Raise e => Raise e
    end.
Proof.
  revert c. induction pre as [|d pre IH]; intros c; simpl; [done|].
  destruct (instruction_contents aA aD aC aK c d); [apply IH|done].
Qed.

(** ** [ApplyDiff]: the source dict, the unchanged signal, errors *)

(** C8: [ApplyDiff] never mutates its [src] argument. Whatever the
    instruction list and the flags, and whether the call returns a dict,
    returns [None] or raises, the contents of the object [src] after the
    call are its contents before the call; the writes go to a new object,
    so a returned dict is never [src] itself. *)
Theorem ApplyDiff_never_mutates_src aA aD aC aK (h : heap) (src : loc)
    (c : gmap string value) diff :
  h !! src = Some c →
  (ApplyDiff aA aD aC aK src diff h).1 !! src = Some c
  ∧ (ApplyDiff aA aD aC aK src diff h).2 ≠ Ok (Some src).
Proof.
  intros Hsrc. split; [by apply ApplyDiff_frame|].
  rewrite (ApplyDiff_result _ _ _ _ h src c diff Hsrc).
  assert (fresh (dom h) ≠ src) as Hne.
  { intros Heq. pose proof (is_fresh (dom h)) as Hf.
    apply not_elem_of_dom in Hf. congruence. }
  destruct (forallb _ diff); [done|].
  destruct (for_contents _ _ _ _ c diff); congruence.
Qed.

Lemma ApplyDiff_never_mutates_src_witness :
  (ApplyDiff true false true true 1%positive ex_res {[1%positive := ex_a]}).1
    !! 1%positive = Some ex_a
  ∧ (ApplyDiff true false true true 1%positive ex_res {[1%positive := ex_a]}).2
    ≠ Ok (Some 1%positive).
Proof.
  apply (ApplyDiff_never_mutates_src true false true true
           {[1%positive := ex_a]} 1%positive ex_a ex_res).
  vm_compute. reflexivity.
Defined.

(** C6: when every instruction of the list is a Keep, [ApplyDiff] returns
    the unchanged signal [None], whatever the source dict and the flags;
    it returns no dict. *)
Theorem ApplyDiff_all_Keep_returns_None aA aD aC aK (h : heap) (src : loc)
    (c : gmap string value) diff :
  h !! src = Some c →
  Forall (λ d, action d = "k") diff →
  returns_None (ApplyDiff aA aD aC aK src diff h)
  ∧ ∀ c', ¬ returns_dict (ApplyDiff aA aD aC aK src diff h) c'.
Proof.
  intros Hsrc Hk. apply WasChanged_false in Hk.
  assert (returns_None (ApplyDiff aA aD aC aK src diff h)) as HN.
  { unfold returns_None. rewrite (ApplyDiff_result _ _ _ _ h src c diff Hsrc).
    by rewrite forallb_keep_WasChanged, Hk. }
  split; [done|]. intros c' (l & Hl & _).
  unfold returns_None in HN. congruence.
Qed.

Lemma ApplyDiff_all_Keep_returns_None_witness :
  returns_None (ApplyDiff true true true false 1%positive
                  [("k", "Alice", VInt 10); ("k", "Bob", VInt 20)]
                  {[1%positive := ex_a]})
  ∧ ∀ c', ¬ returns_dict (ApplyDiff true true true false 1%positive
                            [("k", "Alice", VInt 10); ("k", "Bob", VInt 20)]
                            {[1%positive := ex_a]}) c'.
Proof.
  apply (ApplyDiff_all_Keep_returns_None true true true false
           {[1%positive := ex_a]} 1%positive ex_a).
  - vm_compute. reflexivity.
  - repeat constructor.
Defined.

(** C10: [WasChanged(diff)] is true exactly when some instruction has an
    action code other than ['k'], and [ApplyDiff(src, diff, ...)] returns
    the unchanged signal [None] exactly when [WasChanged(diff)] is false,
    for every source dict and every setting of the flags; for the empty
    list it returns [None] even with every flag false. *)
Theorem WasChanged_iff_ApplyDiff_not_None aA aD aC aK (h : heap) (src : loc)
    (c : gmap string value) diff :
  h !! src = Some c →
  (WasChanged diff = true ↔ ∃ d, d ∈ diff ∧ action d ≠ "k")
  ∧ (returns_None (ApplyDiff aA aD aC aK src diff h) ↔ WasChanged diff = false)
  ∧ returns_None (ApplyDiff false false false false src [] h).
Proof.
  intros Hsrc. split; [apply WasChanged_true|]. split.
  - unfold returns_None. rewrite (ApplyDiff_result _ _ _ _ h src c diff Hsrc).
    rewrite forallb_keep_WasChanged.
    destruct (WasChanged diff); simpl; [|done].
    split; [|done]. by destruct (for_contents _ _ _ _ c diff).
  - unfold returns_None. by rewrite (ApplyDiff_result _ _ _ _ h src c [] Hsrc).
Qed.

Lemma WasChanged_iff_ApplyDiff_not_None_witness :
  (WasChanged ex_res = true ↔ ∃ d, d ∈ ex_res ∧ action d ≠ "k")
  ∧ (returns_None (ApplyDiff true true false true 2%positive ex_res
                     {[2%positive := ex_a]})
     ↔ WasChanged ex_res = false)
  ∧ returns_None (ApplyDiff false false false false 2%positive []
                    {[2%positive := ex_a]}).
Proof.
  apply (WasChanged_iff_ApplyDiff_not_None true true false true
           {[2%positive := ex_a]} 2%positive ex_a ex_res).
  vm_compute. reflexivity.
Defined.

Lemma ApplyDiff_raises_at aA aD aC aK (h h1 h2 : heap) (src : loc)
    (c : gmap string value) pre d suf e :
  h !! src = Some c →
  WasChanged (pre ++ d :: suf) = true →
  apply_for aA aD aC aK (fresh (dom h)) pre (<[fresh (dom h) := c]> h)
    = (h1, Ok tt) →
  apply_instruction aA aD aC aK (fresh (dom h)) d h1 = (h2, Raise e) →
  ApplyDiff aA aD aC aK src (pre ++ d :: suf) h = (h2, Raise e).
Proof.
  intros Hsrc Hch Hpre Hd. unfold ApplyDiff.
  rewrite forallb_keep_WasChanged, Hch. simpl.
  assert (dict_copy src h = (<[fresh (dom h) := c]> h, Ok (fresh (dom h))))
    as Hcopy by (unfold dict_copy; by rewrite Hsrc).
  rewrite (bind_Ok _ _ _ _ _ Hcopy).
  apply bind_Raise. rewrite apply_for_app, (bind_Ok _ _ _ _ _ Hpre). simpl.
  by apply bind_Raise.
Qed.

Lemma ApplyDiff_raises_app aA aD aC aK (src : loc) diff suf (h : heap) e :
  raises (ApplyDiff aA aD aC aK src diff h) e →
  ApplyDiff aA aD aC aK src (diff ++ suf) h = ApplyDiff aA aD aC aK src diff h.
Proof.
  unfold raises, ApplyDiff.
  unfold bind at 1 3 5.
  destruct (dict_copy src h) as [h' [l|e']]; [|done].
  rewrite forallb_app.
  destruct (forallb _ diff) eqn:Hd; simpl; [done|].
  unfold bind at 1 2 3. rewrite apply_for_app.
  unfold bind.
  destruct (apply_for aA aD aC aK l diff h') as [h'' [[]|e'']]; done.
Qed.

(** C7: with [allowDelete] true, a Delete whose key is not in the
    working copy when its turn comes makes [ApplyDiff] fail with
    KeyNotFound: the call ends in the store of that moment, whatever
    instructions follow. The same holds of every error: when an
    instruction of a list that is not of Keep instructions only fails at
    its turn (PermissionDenied, KeyNotFound or UnrecognizedInstruction),
    [ApplyDiff] raises that error in the store of that moment, so no
    later instruction is processed; and a call that raises ends in the
    same store with the same error when instructions are appended to its
    list. Here [pre] are the instructions carried out before the failing
    instruction [d], and [h1] is the store they leave, the working copy
    being the object that [dict(src)] has allocated. *)
Theorem ApplyDiff_errors_abort aA aD aC aK (h h1 : heap) (src : loc)
    (c : gmap string value) pre d suf :
  h !! src = Some c →
  apply_for aA aD aC aK (fresh (dom h)) pre (<[fresh (dom h) := c]> h)
    = (h1, Ok tt) →
  (∀ k v c1,
     d = ("d", k, v) →
     aD = true →
     h1 !! fresh (dom h) = Some c1 →
     c1 !! k = None →
     ApplyDiff aA aD aC aK src (pre ++ d :: suf) h = (h1, Raise (KeyNotFound k)))
  ∧ (∀ h2 e,
       WasChanged (pre ++ d :: suf) = true →
       apply_instruction aA aD aC aK (fresh (dom h)) d h1 = (h2, Raise e) →
       ApplyDiff aA aD aC aK src (pre ++ d :: suf) h = (h2, Raise e))
  ∧ (∀ diff suf' e,
       raises (ApplyDiff aA aD aC aK src diff h) e →
       ApplyDiff aA aD aC aK src (diff ++ suf') h
       = ApplyDiff aA aD aC aK src diff h).
Proof.
  intros Hsrc Hpre. split; [|split].
  - intros k v c1 -> -> Hc1 Hk.
    apply (ApplyDiff_raises_at _ _ _ _ h h1 h1 src c pre _ suf _ Hsrc); [|done|].
    + rewrite WasChanged_true. exists ("d", k, v).
      split; [|done]. apply elem_of_app. right. apply elem_of_cons. by left.
    + unfold apply_instruction. simpl. unfold dict_delitem. by rewrite Hc1, Hk.
  - intros h2 e Hch Hd. by eapply ApplyDiff_raises_at.
  - intros diff suf' e. apply ApplyDiff_raises_app.
Qed.

Lemma ApplyDiff_errors_abort_witness :
  ApplyDiff true true true true 1%positive
    ([("a", "David", VInt 40)] ++ ("d", "Zed", VNone) :: [("e", "Alice", VInt 15)])
    {[1%positive := ex_a]}
    = (<[2%positive := <["David" := VInt 40]> ex_a]> {[1%positive := ex_a]},
       Raise (KeyNotFound "Zed"))
  ∧ ApplyDiff true true false true 1%positive
      ([("a", "David", VInt 40)] ++ ("e", "Alice", VInt 15)
         :: [("d", "Charlie", VStr "")])
      {[1%positive := ex_a]}
    = (<[2%positive := <["David" := VInt 40]> ex_a]> {[1%positive := ex_a]},
       Raise (PermissionDenied "Changing properties is not allowed"))
  ∧ ApplyDiff true true true true 1%positive
      ([("a", "David", VInt 40)] ++ ("?", "Bob", VNone)
         :: [("d", "Charlie", VStr "")])
      {[1%positive := ex_a]}
    = (<[2%positive := <["David" := VInt 40]> ex_a]> {[1%positive := ex_a]},
       Raise (UnrecognizedInstruction "?"))
  ∧ ApplyDiff true false true true 1%positive
      (ex_res ++ [("?", "Bob", VNone)]) {[1%positive := ex_a]}
    = ApplyDiff true false true true 1%positive ex_res {[1%positive := ex_a]}.
Proof.
  split; [|split; [|split]].
  - destruct (ApplyDiff_errors_abort true true true true
                {[1%positive := ex_a]}
                (<[2%positive := <["David" := VInt 40]> ex_a]> {[1%positive := ex_a]})
                1%positive ex_a
                [("a", "David", VInt 40)] ("d", "Zed", VNone)
                [("e", "Alice", VInt 15)])
      as (Hdelete & _ & _).
    + vm_compute. reflexivity.
    + vm_compute. reflexivity.
    + apply (Hdelete "Zed" VNone (<["David" := VInt 40]> ex_a)).
      * reflexivity.
      * reflexivity.
      * vm_compute. reflexivity.
      * vm_compute. reflexivity.
  - destruct (ApplyDiff_errors_abort true true false true
                {[1%positive := ex_a]}
                (<[2%positive := <["David" := VInt 40]> ex_a]> {[1%positive := ex_a]})
                1%positive ex_a
                [("a", "David", VInt 40)] ("e", "Alice", VInt 15)
                [("d", "Charlie", VStr "")])
      as (_ & Hraise & _).
    + vm_compute. reflexivity.
    + vm_compute. reflexivity.
    + apply Hraise.
      * reflexivity.
      * vm_compute. reflexivity.
  - destruct (ApplyDiff_errors_abort true true true true
                {[1%positive := ex_a]}
                (<[2%positive := <["David" := VInt 40]> ex_a]> {[1%positive := ex_a]})
                1%positive ex_a
                [("a", "David", VInt 40)] ("?", "Bob", VNone)
                [("d", "Charlie", VStr "")])
      as (_ & Hraise & _).
    + vm_compute. reflexivity.
    + vm_compute. reflexivity.
    + apply Hraise.
      * reflexivity.
      * vm_compute. reflexivity.
  - destruct (ApplyDiff_errors_abort true false true true
                {[1%positive := ex_a]} (<[2%positive := ex_a]> {[1%positive := ex_a]})
                1%positive ex_a [] ("d", "Charlie", VStr "") [])
      as (_ & _ & Habort).
    + vm_compute. reflexivity.
    + vm_compute. reflexivity.
    + apply (Habort ex_res [("?", "Bob", VNone)] (not_allowed "Deleting")).
      vm_compute. reflexivity.
Defined.

(** ** [ApplyDiff]: the permission flags *)

Lemma instruction_contents_all_flags aA aD aC aK (c : gmap string value) d :
  match instruction_contents aA aD aC aK c d with
  | Ok c' => instruction_contents true true true true c d = Ok c'
             ∧ allowed aA aD aC aK (action d) = true
  | Raise e => (∃ msg, e = PermissionDenied msg)
               ∨ instruction_contents true true true true c d = Raise e
  end.
Proof.
  unfold allowed, action, instruction_contents, not_allowed.
  repeat match goal with
         | |- context [String.eqb ?x ?y] => destruct (String.eqb x y)
         end; simpl;
    repeat match goal with
           | |- context [negb ?b] => destruct b; simpl
           end; eauto;
    destruct (c !! d.1.2); eauto.
Qed.

Lemma for_contents_denied aA aD aC aK diff : ∀ c : gmap string value,
  (∃ d, d ∈ diff ∧ allowed aA aD aC aK (action d) = false) →
  ∃ e, for_contents aA aD aC aK c diff = Raise e
       ∧ ((∃ msg, e = PermissionDenied msg)
          ∨ for_contents true true true true c diff = Raise e).
Proof.
  induction diff as [|d0 diff IH]; intros c (d & Hin & Hd).
  { by apply elem_of_nil in Hin. }
  simpl. pose proof (instruction_contents_all_flags aA aD aC aK c d0) as Hstep.
  destruct (instruction_contents aA aD aC aK c d0) as [c'|e].
  - destruct Hstep as [-> Hallowed].
    apply IH. exists d. split; [|done].
    apply elem_of_cons in Hin as [->|Hin]; [congruence|done].
  - exists e. split; [done|].
    destruct Hstep as [Hpd| ->]; [by left|by right].
Qed.

Lemma for_contents_known_codes diff : ∀ c : gmap string value,
  Forall (λ d, action d ∈ ["k"; "a"; "d"; "e"]) diff →
  ∀ e, for_contents true true true true c diff = Raise e →
       ∃ k v, e = KeyNotFound k ∧ ("d", k, v) ∈ diff.
Proof.
  induction diff as [|d0 diff IH]; intros c Hknown e; simpl; [done|].
  apply Forall_cons in Hknown as [Hd0 Hknown].
  destruct d0 as [[l k] v]. unfold action in Hd0. simpl in Hd0.
  unfold instruction_contents. simpl.
  assert (∀ k' v', ("d", k', v') ∈ diff → ("d", k', v') ∈ (l, k, v) :: diff)
    as Hmono by (intros; by apply elem_of_cons; right).
  set_unfold in Hd0.
  destruct Hd0 as [->|[->|[->|[->|[]]]]]; simpl.
  - intros He. destruct (IH c Hknown e He) as (k' & v' & -> & Hin). eauto.
  - intros He. destruct (IH _ Hknown e He) as (k' & v' & -> & Hin). eauto.
  - destruct (c !! k) eqn:Hk.
    + intros He. destruct (IH _ Hknown e He) as (k' & v' & -> & Hin). eauto.
    + intros [= <-]. exists k, v. split; [done|]. apply elem_of_cons. by left.
  - intros He. destruct (IH _ Hknown e He) as (k' & v' & -> & Hin). eauto.
Qed.

Lemma ApplyDiff_denied aA aD aC aK (h : heap) (src : loc) (c : gmap string value) diff d :
  h !! src = Some c →
  d ∈ diff →
  allowed aA aD aC aK (action d) = false →
  WasChanged diff = true →
  raises_denied_or (ApplyDiff aA aD aC aK src diff h)
                   (ApplyDiff true true true true src diff h).
Proof.
  intros Hsrc Hin Hd Hch. unfold raises_denied_or, raises.
  rewrite !(ApplyDiff_result _ _ _ _ h src c diff Hsrc).
  rewrite forallb_keep_WasChanged, Hch. simpl.
  destruct (for_contents_denied aA aD aC aK diff c) as (e & -> & He); [by eauto|].
  exists e. split; [done|]. destruct He as [?| ->]; [by left|by right].
Qed.

Lemma instruction_contents_allowed aA aD aC aK (c : gmap string value) d :
  allowed aA aD aC aK (action d) = true →
  instruction_contents aA aD aC aK c d
  = instruction_contents true true true true c d.
Proof.
  unfold allowed, action, instruction_contents.
  repeat match goal with
         | |- context [String.eqb ?x ?y] => destruct (String.eqb x y)
         end; try done; by intros ->.
Qed.

Lemma instruction_contents_not_allowed aA aD aC aK (c : gmap string value) d :
  allowed aA aD aC aK (action d) = false →
  ∃ msg, instruction_contents aA aD aC aK c d = Raise (PermissionDenied msg).
Proof.
  unfold allowed, action, instruction_contents, not_allowed.
  repeat match goal with
         | |- context [String.eqb ?x ?y] => destruct (String.eqb x y)
         end; intros Hflag; try done; subst; simpl; eauto.
Qed.

Lemma for_contents_allowed aA aD aC aK pre : ∀ c : gmap string value,
  (∀ d, d ∈ pre → allowed aA aD aC aK (action d) = true) →
  for_contents aA aD aC aK c pre = for_contents true true true true c pre.
Proof.
  induction pre as [|d pre IH]; intros c Hpre; simpl; [done|].
  rewrite instruction_contents_allowed by (apply Hpre, elem_of_cons; by left).
  destruct (instruction_contents true true true true c d); [|done].
  apply IH. intros d' Hd'. apply Hpre, elem_of_cons. by right.
Qed.

Lemma for_contents_Keep aA aD aC diff : ∀ c : gmap string value,
  forallb (λ d : instruction, String.eqb d.1.1 "k") diff = true →
  for_contents aA aD aC true c diff = Ok c.
Proof.
  induction diff as [|d diff IH]; intros c; simpl; [done|].
  intros [Hd Hdiff]%andb_true_iff. unfold instruction_contents.
  apply String.eqb_eq in Hd. rewrite Hd. simpl. by apply IH.
Qed.

Lemma first_not_allowed aA aD aC aK (diff : list instruction) d0 :
  d0 ∈ diff →
  allowed aA aD aC aK (action d0) = false →
  ∃ pre d suf,
    diff = (pre ++ d :: suf)%list
    ∧ (∀ d', d' ∈ pre → allowed aA aD aC aK (action d') = true)
    ∧ allowed aA aD aC aK (action d) = false.
Proof.
  intros Hin Hd0. induction diff as [|d1 diff IH]; [by apply elem_of_nil in Hin|].
  destruct (allowed aA aD aC aK (action d1)) eqn:Hd1.
  - apply elem_of_cons in Hin as [->|Hin]; [congruence|].
    destruct (IH Hin) as (pre & d & suf & -> & Hpre & Hd).
    exists (d1 :: pre), d, suf. split; [done|]. split; [|done].
    intros d' [->|Hd']%elem_of_cons; [done|by apply Hpre].
  - exists [], d1, diff. split; [done|]. split; [|done].
    intros d' Hd'. by apply elem_of_nil in Hd'.
Qed.

Lemma ApplyDiff_first_denied aA aD aC aK (h : heap) (src : loc)
    (c : gmap string value) pre d suf :
  h !! src = Some c →
  (∀ d', d' ∈ pre → allowed aA aD aC aK (action d') = true) →
  allowed aA aD aC aK (action d) = false →
  WasChanged (pre ++ d :: suf) = true →
  (is_ok (ApplyDiff true true true true src pre h).2 = true →
   ∃ msg, raises (ApplyDiff aA aD aC aK src (pre ++ d :: suf) h)
                 (PermissionDenied msg))
  ∧ (∀ e, raises (ApplyDiff true true true true src pre h) e →
          raises (ApplyDiff aA aD aC aK src (pre ++ d :: suf) h) e).
Proof.
  intros Hsrc Hpre Hd Hch. unfold raises.
  rewrite !(ApplyDiff_result _ _ _ _ h src c _ Hsrc).
  rewrite !forallb_keep_WasChanged, Hch. simpl.
  rewrite for_contents_app, (for_contents_allowed _ _ _ _ pre c Hpre).
  pose proof (for_contents_Keep true true true pre c) as Hkeep.
  rewrite forallb_keep_WasChanged in Hkeep.
  destruct (instruction_contents_not_allowed aA aD aC aK) with (c := c) (d := d)
    as [msg0 Hmsg0]; [done|].
  destruct (WasChanged pre); simpl in *.
  - destruct (for_contents true true true true c pre) as [c1|e1]; simpl.
    + destruct (instruction_contents_not_allowed aA aD aC aK c1 d Hd) as [msg ->].
      split; [by eauto|done].
    + split; [done|]. by intros e [= ->].
  - rewrite (Hkeep eq_refl). simpl. rewrite Hmsg0. split; [by eauto|done].
Qed.

(** C4, as the code has it. For each of the four flags: with that flag
    false, a call on a list that holds an instruction of that kind, and
    for [allowKeep] also an instruction that is not a Keep, raises. Which
    error: a list that holds an instruction whose flag is false has a
    first such instruction [d], every instruction before it having its
    flag true. When the list is not of Keep instructions only and the
    instructions before [d] raise nothing in a call with every flag true,
    the call raises PermissionDenied; when they raise an error there
    (KeyNotFound, UnrecognizedInstruction), the call raises that error.
    A list of Keep instructions only returns [None] whatever the flags,
    [allowKeep] false included. With all four flags true and only the
    codes k, a, d, e in the list, the one error the call can raise is
    KeyNotFound, for the key of a Delete instruction of the list. *)
Theorem ApplyDiff_permission_flags (h : heap) (src : loc) (c : gmap string value) diff :
  h !! src = Some c →
  (∀ aD aC aK, (∃ d, d ∈ diff ∧ action d = "a") →
     ∃ e, raises (ApplyDiff false aD aC aK src diff h) e)
  ∧ (∀ aA aC aK, (∃ d, d ∈ diff ∧ action d = "d") →
     ∃ e, raises (ApplyDiff aA false aC aK src diff h) e)
  ∧ (∀ aA aD aK, (∃ d, d ∈ diff ∧ action d = "e") →
     ∃ e, raises (ApplyDiff aA aD false aK src diff h) e)
  ∧ (∀ aA aD aC, (∃ d, d ∈ diff ∧ action d = "k") →
     WasChanged diff = true →
     ∃ e, raises (ApplyDiff aA aD aC false src diff h) e)
  ∧ (∀ aA aD aC aK d0,
       d0 ∈ diff →
       allowed aA aD aC aK (action d0) = false →
       ∃ pre d suf,
         diff = (pre ++ d :: suf)%list
         ∧ (∀ d', d' ∈ pre → allowed aA aD aC aK (action d') = true)
         ∧ allowed aA aD aC aK (action d) = false)
  ∧ (∀ aA aD aC aK pre d suf,
       diff = (pre ++ d :: suf)%list →
       (∀ d', d' ∈ pre → allowed aA aD aC aK (action d') = true) →
       allowed aA aD aC aK (action d) = false →
       WasChanged diff = true →
       (is_ok (ApplyDiff true true true true src pre h).2 = true →
        ∃ msg, raises (ApplyDiff aA aD aC aK src diff h) (PermissionDenied msg))
       ∧ (∀ e, raises (ApplyDiff true true true true src pre h) e →
               raises (ApplyDiff aA aD aC aK src diff h) e))
  ∧ (∀ aA aD aC aK,
       Forall (λ d, action d = "k") diff →
       returns_None (ApplyDiff aA aD aC aK src diff h))
  ∧ (Forall (λ d, action d ∈ ["k"; "a"; "d"; "e"]) diff →
     ∀ e, raises (ApplyDiff true true true true src diff h) e →
          ∃ k v, e = KeyNotFound k ∧ ("d", k, v) ∈ diff).
Proof.
  intros Hsrc.
  assert (∀ d l, d ∈ diff → action d = l → l ≠ "k" → WasChanged diff = true)
    as Hch.
  { intros d l Hin Hd Hl. apply WasChanged_true. exists d. by subst. }
  assert (∀ aA aD aC aK d, d ∈ diff → allowed aA aD aC aK (action d) = false →
            WasChanged diff = true →
            ∃ e, raises (ApplyDiff aA aD aC aK src diff h) e) as Hraises.
  { intros aA aD aC aK d Hin Hd Hchanged.
    destruct (ApplyDiff_denied aA aD aC aK h src c diff d Hsrc Hin Hd Hchanged)
      as (e & He & _). eauto. }
  split; [|split; [|split; [|split; [|split; [|split; [|split]]]]]].
  - intros aD aC aK (d & Hin & Hd).
    apply (Hraises _ _ _ _ d); [done| |by eapply Hch]. by rewrite Hd.
  - intros aA aC aK (d & Hin & Hd).
    apply (Hraises _ _ _ _ d); [done| |by eapply Hch]. by rewrite Hd.
  - intros aA aD aK (d & Hin & Hd).
    apply (Hraises _ _ _ _ d); [done| |by eapply Hch]. by rewrite Hd.
  - intros aA aD aC (d & Hin & Hd) Hchanged.
    apply (Hraises _ _ _ _ d); [done| |done]. by rewrite Hd.
  - intros aA aD aC aK d0. apply first_not_allowed.
  - intros aA aD aC aK pre d suf -> Hpre Hd Hchanged.
    by apply (ApplyDiff_first_denied _ _ _ _ h src c).
  - intros aA aD aC aK Hkeep. apply WasChanged_false in Hkeep.
    unfold returns_None. rewrite (ApplyDiff_result _ _ _ _ h src c diff Hsrc).
    by rewrite forallb_keep_WasChanged, Hkeep.
  - intros Hknown e. unfold raises.
    rewrite (ApplyDiff_result _ _ _ _ h src c diff Hsrc).
    destruct (forallb _ diff); [done|].
    destruct (for_contents true true true true c diff) eqn:Hfor; [done|].
    intros [= ->]. by eapply for_contents_known_codes.
Qed.

Lemma ApplyDiff_permission_flags_witness :
  (∃ e, raises (ApplyDiff true false true true 1%positive ex_res
                  {[1%positive := ex_a]}) e)
  ∧ (∃ msg, raises (ApplyDiff true true true false 1%positive ex_res
                      {[1%positive := ex_a]}) (PermissionDenied msg))
  ∧ raises (ApplyDiff false true true true 1%positive
              ([("d", "Zed", VNone)] ++ ("a", "David", VInt 40) :: [])
              {[1%positive := ex_a]})
           (KeyNotFound "Zed")
  ∧ returns_None (ApplyDiff false false false false 1%positive
                    [("k", "Bob", VInt 20)] {[1%positive := ex_a]}).
Proof.
  destruct (ApplyDiff_permission_flags {[1%positive := ex_a]} 1%positive ex_a ex_res)
    as (_ & Hd & _ & _ & _ & Hfirst & _); [vm_compute; reflexivity|].
  destruct (ApplyDiff_permission_flags {[1%positive := ex_a]} 1%positive ex_a
              ([("d", "Zed", VNone)] ++ ("a", "David", VInt 40) :: []))
    as (_ & _ & _ & _ & _ & Hearlier & _); [vm_compute; reflexivity|].
  destruct (ApplyDiff_permission_flags {[1%positive := ex_a]} 1%positive ex_a
              [("k", "Bob", VInt 20)])
    as (_ & _ & _ & _ & _ & _ & Hkeep & _); [vm_compute; reflexivity|].
  split; [|split; [|split]].
  - apply Hd. exists ("d", "Charlie", VStr ""). split; [|reflexivity].
    unfold ex_res. repeat constructor.
  - destruct (Hfirst true true true false
                [("d", "Charlie", VStr ""); ("a", "David", VInt 40);
                 ("e", "Alice", VInt 15)]
                ("k", "Bob", VInt 20) []) as [Hdenied _].
    + reflexivity.
    + intros d' Hd'.
      repeat (apply elem_of_cons in Hd' as [->|Hd']; [reflexivity|]).
      by apply elem_of_nil in Hd'.
    + reflexivity.
    + reflexivity.
    + apply Hdenied. vm_compute. reflexivity.
  - destruct (Hearlier false true true true
                [("d", "Zed", VNone)] ("a", "David", VInt 40) []) as [_ Hsame].
    + reflexivity.
    + intros d' Hd'.
      repeat (apply elem_of_cons in Hd' as [->|Hd']; [reflexivity|]).
      by apply elem_of_nil in Hd'.
    + reflexivity.
    + reflexivity.
    + apply Hsame. vm_compute. reflexivity.
  - apply Hkeep. repeat constructor.
Defined.

(** C4 as stated fails three times. A list of Keep instructions with
    [allowKeep] false raises nothing: the call returns [None]. With
    [allowAdd] false, a list that holds an Add after a Delete of a key
    the dict does not have raises KeyNotFound, not PermissionDenied. And
    with every flag true, a Delete of a key the dict does not have raises
    KeyNotFound. *)
Lemma ApplyDiff_permission_flags_counterexample :
  ("k", "Bob", VInt 20) ∈ [("k", "Bob", VInt 20)]
  ∧ returns_None (ApplyDiff true true true false 1%positive
                    [("k", "Bob", VInt 20)] {[1%positive := ex_a]})
  ∧ (¬ ∃ e, raises (ApplyDiff true true true false 1%positive
                      [("k", "Bob", VInt 20)] {[1%positive := ex_a]}) e)
  ∧ ("a", "David", VInt 40) ∈ [("d", "Zed", VNone); ("a", "David", VInt 40)]
  ∧ raises (ApplyDiff false true true true 1%positive
              [("d", "Zed", VNone); ("a", "David", VInt 40)]
              {[1%positive := ex_a]})
           (KeyNotFound "Zed")
  ∧ (¬ ∃ msg, raises (ApplyDiff false true true true 1%positive
                        [("d", "Zed", VNone); ("a", "David", VInt 40)]
                        {[1%positive := ex_a]})
                     (PermissionDenied msg))
  ∧ raises (ApplyDiff true true true true 1%positive
              [("d", "David", VInt 40)] {[1%positive := ex_a]})
           (KeyNotFound "David").
Proof.
  split; [repeat constructor|].
  split; [vm_compute; reflexivity|].
  split; [intros [e He]; vm_compute in He; discriminate|].
  split; [repeat constructor|].
  split; [vm_compute; reflexivity|].
  split; [intros [msg Hmsg]; vm_compute in Hmsg; discriminate|].
  vm_compute. reflexivity.
Qed.

(** ** [sorted] *)

Lemma sorted_Permutation (s : gset string) : sorted s ≡ₚ elements s.
Proof. apply merge_sort_Permutation. Qed.

Lemma elem_of_sorted (s : gset string) k : k ∈ sorted s ↔ k ∈ s.
Proof. by rewrite sorted_Permutation, elem_of_elements. Qed.

Lemma NoDup_sorted (s : gset string) : NoDup (sorted s).
Proof. rewrite sorted_Permutation. apply NoDup_elements. Qed.

Lemma StronglySorted_sorted (s : gset string) : StronglySorted String.le (sorted s).
Proof. apply (StronglySorted_merge_sort String.le). Qed.

Lemma sorted_empty (s : gset string) : s = ∅ → sorted s = [].
Proof.
  intros ->. apply Permutation_nil_r. rewrite sorted_Permutation.
  by rewrite elements_empty.
Qed.

Lemma length_sorted (s : gset string) : length (sorted s) = size s.
Proof. by rewrite sorted_Permutation. Qed.

(** ** The pass under [autoaccept] *)

Lemma row_deleted_auto self maxkeylen k v stdin :
  A self !! k = Some v →
  row_deleted self maxkeylen true k stdin = (stdin, Ok (Some (deleted_instruction k))).
Proof. intros Hk. unfold row_deleted, bind, getitem. by rewrite Hk. Qed.

Lemma row_added_auto self maxkeylen k v stdin :
  B self !! k = Some v →
  row_added self maxkeylen true k stdin
    = (stdin, Ok (Some (added_instruction (B self) k))).
Proof.
  intros Hk. unfold row_added, bind, getitem, added_instruction. by rewrite Hk.
Qed.

Lemma row_common_auto self maxkeylen k va vb stdin :
  A self !! k = Some va →
  B self !! k = Some vb →
  row_common self maxkeylen true k stdin
    = (stdin, Ok (Some (common_instruction (A self) (B self) k))).
Proof.
  intros Ha Hb. unfold row_common, bind, getitem, common_instruction.
  rewrite Ha, Hb. simpl. by destruct (py_eq va vb).
Qed.

Lemma for_keys_auto row (f : string → instruction) keys :
  (∀ k stdin, k ∈ keys → row k stdin = (stdin, Ok (Some (f k)))) →
  ∀ ret stdin, for_keys row keys ret stdin = (stdin, Ok (ret ++ (f <$> keys))%list).
Proof.
  induction keys as [|k keys IH]; intros Hrow ret stdin; simpl.
  - by rewrite app_nil_r.
  - unfold bind. rewrite Hrow by (apply elem_of_cons; by left).
    rewrite IH by (intros; apply Hrow; apply elem_of_cons; by right).
    simpl. by rewrite <- app_assoc.
Qed.

Lemma review_known {S} ret (s : S) :
  Forall (λ d, action d ∈ ["k"; "a"; "d"; "e"]) ret →
  review ret s = (s, Ok tt).
Proof.
  induction 1 as [|d ret Hd _ IH]; simpl; [done|].
  unfold action in Hd. set_unfold in Hd.
  destruct Hd as [->|[->|[->|[->|[]]]]]; simpl; apply IH.
Qed.

Lemma auto_instructions_known a b :
  Forall (λ d, action d ∈ ["k"; "a"; "d"; "e"]) (auto_instructions a b).
Proof.
  unfold auto_instructions. rewrite !Forall_app, !Forall_fmap.
  repeat split; apply Forall_forall; intros k _; simpl.
  - unfold action; simpl. set_solver.
  - unfold action; simpl. set_solver.
  - unfold common_instruction. destruct (py_eq _ _); unfold action; simpl; set_solver.
Qed.

Lemma _ShowDiff_auto a b title stdin :
  _ShowDiff (MkDictDiff a b) title true stdin = (stdin, Ok (auto_instructions a b)).
Proof.
  unfold _ShowDiff, A, B. simpl.
  destruct ((size (dom a) =? 0)%nat && (size (dom b) =? 0)%nat) eqn:Hempty.
  - apply andb_true_iff in Hempty as [Ha%Nat.eqb_eq Hb%Nat.eqb_eq].
    apply size_empty_iff in Ha, Hb. apply leibniz_equiv in Ha, Hb.
    unfold auto_instructions. rewrite Ha, Hb.
    rewrite !sorted_empty by set_solver. done.
  - unfold bind.
    rewrite (for_keys_auto _ deleted_instruction); cycle 1.
    { intros k s [Hk _]%elem_of_sorted%elem_of_difference.
      apply elem_of_dom in Hk as [v Hv]. by eapply row_deleted_auto. }
    rewrite (for_keys_auto _ (added_instruction b)); cycle 1.
    { intros k s [Hk _]%elem_of_sorted%elem_of_difference.
      apply elem_of_dom in Hk as [v Hv].
      by apply (row_added_auto (MkDictDiff a b) _ k v). }
    rewrite (for_keys_auto _ (common_instruction a b)); cycle 1.
    { intros k s [[va Hva]%elem_of_dom [vb Hvb]%elem_of_dom]%elem_of_sorted%elem_of_intersection.
      by apply (row_common_auto (MkDictDiff a b) _ k va vb). }
    unfold pure, auto_instructions. simpl. by rewrite <- app_assoc.
Qed.

Lemma AutoDiff_auto a b title stdin :
  AutoDiff (MkDictDiff a b) title stdin = (stdin, Ok (auto_instructions a b)).
Proof.
  unfold AutoDiff, ShowDiff. simpl. unfold bind.
  rewrite _ShowDiff_auto. rewrite review_known by apply auto_instructions_known.
  done.
Qed.

Lemma ikey_deleted (ks : list string) : ikey <$> (deleted_instruction <$> ks) = ks.
Proof. rewrite <- list_fmap_compose. apply list_fmap_id. Qed.

Lemma ikey_added b (ks : list string) : ikey <$> (added_instruction b <$> ks) = ks.
Proof. rewrite <- list_fmap_compose. apply list_fmap_id. Qed.

Lemma ikey_common a b (ks : list string) : ikey <$> (common_instruction a b <$> ks) = ks.
Proof.
  rewrite <- list_fmap_compose. rewrite <- (list_fmap_id ks) at 2.
  apply list_fmap_ext. intros _ k _. simpl.
  unfold common_instruction. by destruct (py_eq _ _).
Qed.

Lemma key_groups_union (X Y : gset string) :
  X ∪ Y = (X ∖ Y) ∪ ((Y ∖ X) ∪ (X ∩ Y)).
Proof.
  apply set_eq. intros k.
  destruct (decide (k ∈ X)), (decide (k ∈ Y)); set_solver.
Qed.

(** C2: the auto-accept pass returns, without reading stdin, one
    instruction for each key of [keys(A) ∪ keys(B)] (so as many
    instructions as that union has keys): first those of the keys of A
    only, with code ['d'], then those of the keys of B only, with code
    ['a'], then those of the common keys, with code ['k'] where the two
    values are equal and ['e'] where they are not; each group is sorted by
    key. *)
Theorem AutoDiff_one_instruction_per_key (a b : gmap string value) title stdin :
  ∃ deleted added common : list instruction,
    AutoDiff (MkDictDiff a b) title stdin
      = (stdin, Ok (deleted ++ added ++ common)%list)
    ∧ length (deleted ++ added ++ common)%list = size (dom a ∪ dom b)
    ∧ ikey <$> (deleted ++ added ++ common)%list ≡ₚ elements (dom a ∪ dom b)
    ∧ (∀ k, k ∈ ikey <$> deleted ↔ k ∈ dom a ∖ dom b)
    ∧ (∀ k, k ∈ ikey <$> added ↔ k ∈ dom b ∖ dom a)
    ∧ (∀ k, k ∈ ikey <$> common ↔ k ∈ dom a ∩ dom b)
    ∧ StronglySorted String.le (ikey <$> deleted)
    ∧ StronglySorted String.le (ikey <$> added)
    ∧ StronglySorted String.le (ikey <$> common)
    ∧ Forall (λ d, action d = "d") deleted
    ∧ Forall (λ d, action d = "a") added
    ∧ Forall (λ d, action d = if decide (a !! ikey d = b !! ikey d)
                              then "k" else "e") common.
Proof.
  exists (deleted_instruction <$> sorted (dom a ∖ dom b)),
         (added_instruction b <$> sorted (dom b ∖ dom a)),
         (common_instruction a b <$> sorted (dom a ∩ dom b)).
  split; [apply AutoDiff_auto|].
  rewrite !fmap_app, ikey_deleted, ikey_added, ikey_common.
  split.
  { rewrite !length_app, !length_fmap, !length_sorted.
    rewrite (key_groups_union (dom a) (dom b)).
    pose proof (size_union (C:=gset string)) as Hsize.
    rewrite !Hsize by set_solver. done. }
  split.
  { rewrite !sorted_Permutation, (key_groups_union (dom a) (dom b)).
    pose proof (elements_disj_union (C:=gset string)) as Helements.
    rewrite !Helements by set_solver. done. }
  split; [intros k; apply elem_of_sorted|].
  split; [intros k; apply elem_of_sorted|].
  split; [intros k; apply elem_of_sorted|].
  split; [apply StronglySorted_sorted|].
  split; [apply StronglySorted_sorted|].
  split; [apply StronglySorted_sorted|].
  split; [by apply Forall_fmap, Forall_forall|].
  split; [by apply Forall_fmap, Forall_forall|].
  apply Forall_fmap, Forall_forall. intros k Hk. simpl.
  apply elem_of_sorted, elem_of_intersection in Hk
    as [[va Hva]%elem_of_dom [vb Hvb]%elem_of_dom].
  unfold common_instruction, py_eq. rewrite Hva, Hvb. simpl.
  destruct (decide (va = vb)) as [->|Hne].
  - rewrite bool_decide_eq_true_2 by done. unfold ikey, action. simpl.
    rewrite Hva, Hvb. by rewrite decide_True.
  - rewrite bool_decide_eq_false_2 by done. unfold ikey, action. simpl.
    rewrite Hva, Hvb. rewrite decide_False; [done|congruence].
Qed.

(** C3: on the dicts of the module's self-test the auto-accept pass
    returns ['d' Charlie], ['a' David 40], ['e' Alice 15], ['k' Bob 20] in
    this order, but the value field of the Delete is the empty string that
    [_ShowDiff] passes as the right-hand value of a deleted row, not 30.
    Applying the list to A returns a dict equal to B and leaves A as it
    was. *)
Theorem AutoDiff_example_Delete_value :
  AutoDiff ex_d "Test 1" [] =
    ([], Ok [("d", "Charlie", VStr ""); ("a", "David", VInt 40);
             ("e", "Alice", VInt 15); ("k", "Bob", VInt 20)])
  ∧ AutoDiff ex_d "Test 1" [] ≠
    ([], Ok [("d", "Charlie", VInt 30); ("a", "David", VInt 40);
             ("e", "Alice", VInt 15); ("k", "Bob", VInt 20)])
  ∧ _ShowRow "Charlie" 8 (VInt 30) (VStr "") "Deleted" false ["d"]
    = ([], Ok (Some ("d", "Charlie", VInt 30)))
  ∧ returns_dict (ApplyDiff true true true true 1%positive ex_res
                    {[1%positive := ex_a]}) ex_b
  ∧ (ApplyDiff true true true true 1%positive ex_res {[1%positive := ex_a]}).1
      !! 1%positive = Some ex_a.
Proof.
  assert (AutoDiff ex_d "Test 1" [] =
    ([], Ok [("d", "Charlie", VStr ""); ("a", "David", VInt 40);
             ("e", "Alice", VInt 15); ("k", "Bob", VInt 20)])) as Heq
    by (vm_compute; reflexivity).
  split; [exact Heq|].
  split; [rewrite Heq; intros [=]|].
  split; [vm_compute; reflexivity|].
  split; [|vm_compute; reflexivity].
  exists 2%positive. split; vm_compute; reflexivity.
Qed.

(** ** The pass with an operator: keys of the instructions *)

Lemma row_turn_key k left right status which d :
  row_turn k left right status which = Return (Some d) → ikey d = k.
Proof.
  unfold row_turn.
  repeat match goal with
         | |- context [if ?c then _ else _] => destruct c
         end; intros [= <-]; done.
Qed.

Lemma enter_new_value_key k stdin stdin' d :
  enter_new_value k stdin = (stdin', Ok (Some d)) → ikey d = k.
Proof.
  unfold enter_new_value, bind, input, pure.
  destruct stdin as [|val stdin1]; [done|]. by intros [= _ <-].
Qed.

Lemma row_ask_key k left right status stdin : ∀ stdin' d,
  row_ask k left right status stdin = (stdin', Ok (Some d)) → ikey d = k.
Proof.
  induction stdin as [|which stdin IH]; intros stdin' d; simpl; [done|].
  destruct (row_turn k left right status which) as [zz| |] eqn:Hturn.
  - intros [= _ ->]. by eapply row_turn_key.
  - apply enter_new_value_key.
  - apply IH.
Qed.

Lemma _ShowRow_key k maxkeylen left right status autoaccept stdin stdin' d :
  _ShowRow k maxkeylen left right status autoaccept stdin = (stdin', Ok (Some d)) →
  ikey d = k.
Proof.
  unfold _ShowRow. destruct autoaccept; [|apply row_ask_key].
  destruct (row_turn k left right status (auto_which status)) as [zz| |] eqn:Hturn.
  - unfold pure. intros [= _ ->]. by eapply row_turn_key.
  - apply enter_new_value_key.
  - done.
Qed.

Lemma for_keys_sublist row keys :
  (∀ k stdin stdin' d, row k stdin = (stdin', Ok (Some d)) → ikey d = k) →
  ∀ ret stdin stdin' ret',
    for_keys row keys ret stdin = (stdin', Ok ret') →
    ∃ new, ret' = (ret ++ new)%list ∧ (ikey <$> new) `sublist_of` keys.
Proof.
  intros Hrow. induction keys as [|k keys IH]; intros ret stdin stdin' ret'; simpl.
  - unfold pure. intros [= _ <-]. exists []. by rewrite app_nil_r.
  - unfold bind. destruct (row k stdin) as [stdin1 [zz|e]] eqn:Hk; [|done].
    intros Hfor. apply IH in Hfor as (new & -> & Hsub).
    destruct zz as [d|]; simpl.
    + exists (d :: new). rewrite <- app_assoc. split; [done|].
      simpl. rewrite (Hrow _ _ _ _ Hk). by apply sublist_skip.
    + exists new. split; [done|]. by apply sublist_cons.
Qed.

Lemma getitem_then_key (c : gmap string value) k
    (row : value → M (list string) (option instruction)) stdin stdin' d :
  (∀ v s s' d', row v s = (s', Ok (Some d')) → ikey d' = k) →
  bind (getitem c k) row stdin = (stdin', Ok (Some d)) → ikey d = k.
Proof.
  intros Hrow. unfold bind, getitem.
  destruct (c !! k) as [v|]; simpl; [apply Hrow|done].
Qed.

Lemma _ShowDiff_sublist a b title autoaccept stdin stdin' diff :
  _ShowDiff (MkDictDiff a b) title autoaccept stdin = (stdin', Ok diff) →
  (ikey <$> diff) `sublist_of`
    (sorted (dom a ∖ dom b) ++ sorted (dom b ∖ dom a) ++ sorted (dom a ∩ dom b))%list.
Proof.
  unfold _ShowDiff, A, B. simpl.
  destruct ((size (dom a) =? 0)%nat && (size (dom b) =? 0)%nat).
  { unfold pure. intros [= _ <-]. apply sublist_nil_l. }
  set (maxkeylen := max_list _). unfold bind.
  destruct (for_keys (row_deleted _ _ _) _ [] stdin) as [s1 [r1|e]] eqn:H1; [|done].
  destruct (for_keys (row_added _ _ _) _ r1 s1) as [s2 [r2|e]] eqn:H2; [|done].
  destruct (for_keys (row_common _ _ _) _ r2 s2) as [s3 [r3|e]] eqn:H3; [|done].
  unfold pure. intros [= _ <-].
  apply for_keys_sublist in H1 as (n1 & -> & Hs1); cycle 1.
  { intros k s s' d. unfold row_deleted. apply getitem_then_key.
    intros v ? ? ?. apply _ShowRow_key. }
  apply for_keys_sublist in H2 as (n2 & -> & Hs2); cycle 1.
  { intros k s s' d. unfold row_added. apply getitem_then_key.
    intros v ? ? ?. apply _ShowRow_key. }
  apply for_keys_sublist in H3 as (n3 & -> & Hs3); cycle 1.
  { intros k s s' d. unfold row_common. apply getitem_then_key.
    intros v ? ? ?. apply getitem_then_key. intros v' ? ? ?. apply _ShowRow_key. }
  simpl. rewrite !fmap_app, <- app_assoc.
  apply sublist_app; [done|]. by apply sublist_app.
Qed.

Lemma NoDup_key_groups (X Y : gset string) :
  NoDup (sorted (X ∖ Y) ++ sorted (Y ∖ X) ++ sorted (X ∩ Y))%list.
Proof.
  rewrite !NoDup_app. repeat split; try apply NoDup_sorted.
  - intros k Hk [Hk'|Hk']%elem_of_app;
      apply elem_of_sorted in Hk, Hk'; set_solver.
  - intros k Hk Hk'. apply elem_of_sorted in Hk, Hk'. set_solver.
Qed.

Lemma elem_of_key_groups (X Y : gset string) k :
  k ∈ (sorted (X ∖ Y) ++ sorted (Y ∖ X) ++ sorted (X ∩ Y))%list → k ∈ X ∪ Y.
Proof. rewrite !elem_of_app, !elem_of_sorted. set_solver. Qed.

Lemma ShowDiff_loop_last_pass fuel self title autoaccept : ∀ stdin stdin' diff,
  ShowDiff_loop fuel self title autoaccept stdin = (stdin', Ok diff) →
  ∃ s s', _ShowDiff self title autoaccept s = (s', Ok diff).
Proof.
  induction fuel as [|fuel IH]; intros stdin stdin' diff; simpl; [done|].
  unfold bind.
  destruct (_ShowDiff self title autoaccept stdin) as [s1 [ret|e]] eqn:Hpass; [|done].
  destruct (review ret s1) as [s2 [[]|e]]; [|done].
  destruct (save_or_redo autoaccept s2) as [s3 [[|]|e]]; [| |done].
  - unfold pure. intros [= _ <-]. eauto.
  - apply IH.
Qed.

(** C5: a key with status Added for which the operator answers "left"
    gets no instruction: [_ShowRow] returns [None], and [_ShowDiff]
    appends nothing for it. So the list of a pass, and the list that
    [ShowDiff] returns, holds at most one instruction for a key, and
    only for keys of [keys(A) ∪ keys(B)]. *)
Theorem Added_keep_left_emits_nothing k maxkeylen left right which rest
    (a b : gmap string value) title autoaccept stdin stdin' diff :
  lower which = "l" →
  _ShowDiff (MkDictDiff a b) title autoaccept stdin = (stdin', Ok diff) →
  _ShowRow k maxkeylen left right "Added" false (which :: rest) = (rest, Ok None)
  ∧ append_row diff None = diff
  ∧ NoDup (ikey <$> diff)
  ∧ (∀ k', k' ∈ ikey <$> diff → k' ∈ dom a ∪ dom b)
  ∧ (∀ s s' diff', ShowDiff (MkDictDiff a b) title autoaccept s = (s', Ok diff') →
       NoDup (ikey <$> diff')
       ∧ ∀ k', k' ∈ ikey <$> diff' → k' ∈ dom a ∪ dom b).
Proof.
  intros Hwhich Hpass.
  assert (∀ s s' diff',
            _ShowDiff (MkDictDiff a b) title autoaccept s = (s', Ok diff') →
            NoDup (ikey <$> diff')
            ∧ ∀ k', k' ∈ ikey <$> diff' → k' ∈ dom a ∪ dom b) as Hkeys.
  { intros s s' diff' Hsub. apply _ShowDiff_sublist in Hsub. split.
    - eapply sublist_NoDup; [apply NoDup_key_groups|exact Hsub].
    - intros k' Hk'. eapply elem_of_key_groups, elem_of_sublist; done. }
  split; [|split; [done|]].
  { unfold _ShowRow. simpl. unfold row_turn. simpl. by rewrite Hwhich. }
  destruct (Hkeys _ _ _ Hpass) as [Hnodup Hdom].
  split; [done|]. split; [done|].
  intros s s' diff' Hshow. unfold ShowDiff in Hshow.
  apply ShowDiff_loop_last_pass in Hshow as (s1 & s1' & Hshow). by eapply Hkeys.
Qed.

Lemma Added_keep_left_emits_nothing_witness :
  _ShowDiff (MkDictDiff {["Alice" := VInt 10]}
                        (<["David" := VInt 40]> {["Alice" := VInt 10]}))
            "Test" false ["L"; "c"]
    = ([], Ok [("k", "Alice", VInt 10)])
  ∧ _ShowRow "David" 5 (VStr "") (VInt 40) "Added" false ("L" :: ["c"])
    = (["c"], Ok None)
  ∧ NoDup (ikey <$> [("k", "Alice", VInt 10)]).
Proof.
  assert (_ShowDiff (MkDictDiff {["Alice" := VInt 10]}
                        (<["David" := VInt 40]> {["Alice" := VInt 10]}))
            "Test" false ["L"; "c"]
          = ([], Ok [("k", "Alice", VInt 10)])) as Hpass
    by (vm_compute; reflexivity).
  split; [exact Hpass|].
  destruct (Added_keep_left_emits_nothing "David" 5 (VStr "") (VInt 40) "L" ["c"]
              {["Alice" := VInt 10]}
              (<["David" := VInt 40]> {["Alice" := VInt 10]})
              "Test" false ["L"; "c"] [] [("k", "Alice", VInt 10)])
    as (Hrow & _ & Hnodup & _).
  - reflexivity.
  - exact Hpass.
  - split; [exact Hrow|exact Hnodup].
Defined.

(** ** [ShowDiff] never runs out of passes *)

Lemma _ShowRow_auto_returns k maxkeylen left right status stdin :
  ∃ zz, _ShowRow k maxkeylen left right status true stdin = (stdin, Ok zz).
Proof.
  unfold _ShowRow, row_turn, auto_which.
  destruct (String.eqb status "Unchanged"); simpl; [by eexists|].
  destruct (String.eqb status "Deleted"); [by eexists|].
  destruct (String.eqb status "Added"); by eexists.
Qed.

Lemma row_ask_stdin k left right status stdin :
  (length (row_ask k left right status stdin).1 ≤ length stdin)%nat
  ∧ (row_ask k left right status stdin).2 ≠ Raise Hang
  ∧ (is_ok (row_ask k left right status stdin).2 = true →
     (length (row_ask k left right status stdin).1 < length stdin)%nat).
Proof.
  induction stdin as [|which stdin IH]; simpl.
  { split; [lia|]. split; done. }
  destruct (row_turn k left right status which); simpl.
  - repeat split; [lia|done|lia].
  - unfold enter_new_value, bind, input, pure.
    destruct stdin; simpl; repeat split; try done; lia.
  - destruct IH as (Hle & Hhang & Hlt). split; [lia|]. split; [done|].
    intros Hok. specialize (Hlt Hok). lia.
Qed.

Lemma for_keys_stdin row keys :
  (∀ k stdin, (length (row k stdin).1 ≤ length stdin)%nat ∧ (row k stdin).2 ≠ Raise Hang) →
  ∀ ret stdin,
    (length (for_keys row keys ret stdin).1 ≤ length stdin)%nat
    ∧ (for_keys row keys ret stdin).2 ≠ Raise Hang.
Proof.
  intros Hrow. induction keys as [|k keys IH]; intros ret stdin; simpl.
  { split; [lia|done]. }
  unfold bind. destruct (Hrow k stdin) as [Hlen Hhang].
  destruct (row k stdin) as [s1 [zz|e]]; simpl in *;
    [|split; [lia|by intros [= ->]]].
  destruct (IH (append_row ret zz) s1). split; [lia|done].
Qed.

Lemma getitem_then_stdin (c : gmap string value) k
    (row : value → M (list string) (option instruction)) stdin :
  (∀ v, (length (row v stdin).1 ≤ length stdin)%nat ∧ (row v stdin).2 ≠ Raise Hang) →
  (length (bind (getitem c k) row stdin).1 ≤ length stdin)%nat
  ∧ (bind (getitem c k) row stdin).2 ≠ Raise Hang.
Proof.
  intros Hrow. unfold bind, getitem.
  destruct (c !! k); simpl; [apply Hrow|split; [lia|done]].
Qed.

Lemma _ShowDiff_stdin self title stdin :
  (length (_ShowDiff self title false stdin).1 ≤ length stdin)%nat
  ∧ (_ShowDiff self title false stdin).2 ≠ Raise Hang.
Proof.
  assert (∀ k maxkeylen left right status s,
            (length (_ShowRow k maxkeylen left right status false s).1 ≤ length s)%nat
            ∧ (_ShowRow k maxkeylen left right status false s).2 ≠ Raise Hang)
    as Hrow.
  { intros. unfold _ShowRow.
    destruct (row_ask_stdin k left right status s) as (? & ? & _). done. }
  unfold _ShowDiff.
  destruct ((size (dom (A self)) =? 0)%nat && (size (dom (B self)) =? 0)%nat).
  { simpl. split; [lia|done]. }
  set (maxkeylen := max_list _). unfold bind.
  assert (∀ k s, (length (row_deleted self maxkeylen false k s).1 ≤ length s)%nat
                 ∧ (row_deleted self maxkeylen false k s).2 ≠ Raise Hang) as Hdel.
  { intros k s. unfold row_deleted. apply getitem_then_stdin. intros. apply Hrow. }
  assert (∀ k s, (length (row_added self maxkeylen false k s).1 ≤ length s)%nat
                 ∧ (row_added self maxkeylen false k s).2 ≠ Raise Hang) as Hadd.
  { intros k s. unfold row_added. apply getitem_then_stdin. intros. apply Hrow. }
  assert (∀ k s, (length (row_common self maxkeylen false k s).1 ≤ length s)%nat
                 ∧ (row_common self maxkeylen false k s).2 ≠ Raise Hang) as Hcom.
  { intros k s. unfold row_common. apply getitem_then_stdin. intros.
    apply getitem_then_stdin. intros. apply Hrow. }
  destruct (for_keys_stdin _ (sorted (dom (A self) ∖ dom (B self))) Hdel [] stdin)
    as [Hl1 Hh1].
  destruct (for_keys (row_deleted _ _ _) _ [] stdin) as [s1 [r1|e]]; simpl in *;
    [|split; [lia|done]].
  destruct (for_keys_stdin _ (sorted (dom (B self) ∖ dom (A self))) Hadd r1 s1)
    as [Hl2 Hh2].
  destruct (for_keys (row_added _ _ _) _ r1 s1) as [s2 [r2|e]]; simpl in *;
    [|split; [lia|done]].
  destruct (for_keys_stdin _ (sorted (dom (A self) ∩ dom (B self))) Hcom r2 s2)
    as [Hl3 Hh3].
  destruct (for_keys (row_common _ _ _) _ r2 s2) as [s3 [r3|e]]; simpl in *;
    (split; [lia|done]).
Qed.

Lemma save_or_redo_ask_stdin stdin :
  (save_or_redo_ask stdin).2 ≠ Raise Hang
  ∧ (is_ok (save_or_redo_ask stdin).2 = true →
     (length (save_or_redo_ask stdin).1 < length stdin)%nat).
Proof.
  induction stdin as [|which stdin IH]; simpl; [done|].
  destruct (outer_turn which); simpl; [split; [done|lia]|].
  destruct IH as [Hhang Hlen]. split; [done|].
  intros Hok. specialize (Hlen Hok). lia.
Qed.

Lemma review_stdin {S} ret (s : S) : (review ret s).1 = s ∧ (review ret s).2 ≠ Raise Hang.
Proof.
  induction ret as [|prop ret IH]; simpl; [done|].
  repeat match goal with
         | |- context [String.eqb ?x ?y] => destruct (String.eqb x y)
         end; done.
Qed.

Lemma ShowDiff_loop_no_Hang fuel self title : ∀ stdin,
  (length stdin < fuel)%nat →
  (ShowDiff_loop fuel self title false stdin).2 ≠ Raise Hang.
Proof.
  induction fuel as [|fuel IH]; intros stdin Hfuel; [lia|]. simpl. unfold bind.
  destruct (_ShowDiff_stdin self title stdin) as [Hl1 Hh1].
  destruct (_ShowDiff self title false stdin) as [s1 [ret|e]]; simpl in *; [|done].
  destruct (review_stdin ret s1) as [Hs2 Hh2].
  destruct (review ret s1) as [s2 [[]|e]]; simpl in *; [|by intros [= ->]].
  subst s2.
  destruct (save_or_redo_ask_stdin s1) as [Hh3 Hl3].
  destruct (save_or_redo_ask s1) as [s3 [[|]|e]]; simpl in *;
    [done| |by intros [= ->]].
  apply IH. specialize (Hl3 eq_refl). lia.
Qed.

Lemma ShowDiff_no_Hang self title autoaccept stdin :
  (ShowDiff self title autoaccept stdin).2 ≠ Raise Hang.
Proof.
  destruct autoaccept.
  - destruct self as [a b]. fold (AutoDiff (MkDictDiff a b) title).
    by rewrite AutoDiff_auto.
  - unfold ShowDiff. apply ShowDiff_loop_no_Hang. lia.
Qed.

(** ** Applying the instructions of the auto-accept pass *)

Lemma for_contents_deleted keys : ∀ c : gmap string value,
  NoDup keys →
  (∀ k, k ∈ keys → is_Some (c !! k)) →
  ∃ c', for_contents true true true true c (deleted_instruction <$> keys) = Ok c'
        ∧ ∀ i, c' !! i = if decide (i ∈ keys) then None else c !! i.
Proof.
  induction keys as [|k keys IH]; intros c Hnodup Hin; simpl.
  - exists c. split; [done|]. intros i. done.
  - apply NoDup_cons in Hnodup as [Hk Hnodup].
    unfold instruction_contents. simpl.
    destruct (Hin k) as [v Hv]; [apply elem_of_cons; by left|]. rewrite Hv.
    destruct (IH (delete k c) Hnodup) as (c' & Hfor & Hc').
    { intros k' Hk'. rewrite lookup_delete_ne by (intros ->; done).
      apply Hin, elem_of_cons. by right. }
    exists c'. split; [done|]. intros i. rewrite Hc'.
    destruct (decide (i = k)) as [->|Hne].
    + rewrite lookup_delete_eq. by repeat case_decide; set_solver.
    + rewrite lookup_delete_ne by done. repeat case_decide; set_solver.
Qed.

Lemma for_contents_added (b : gmap string value) keys : ∀ c : gmap string value,
  (∀ k, k ∈ keys → is_Some (b !! k)) →
  ∃ c', for_contents true true true true c (added_instruction b <$> keys) = Ok c'
        ∧ ∀ i, c' !! i = if decide (i ∈ keys) then b !! i else c !! i.
Proof.
  induction keys as [|k keys IH]; intros c Hin; simpl.
  - exists c. split; [done|]. intros i. done.
  - unfold instruction_contents, added_instruction. simpl.
    destruct (Hin k) as [v Hv]; [apply elem_of_cons; by left|]. rewrite Hv. simpl.
    destruct (IH (<[k := v]> c)) as (c' & Hfor & Hc').
    { intros k' Hk'. apply Hin, elem_of_cons. by right. }
    exists c'. split; [done|]. intros i. rewrite Hc'.
    destruct (decide (i = k)) as [->|Hne].
    + rewrite lookup_insert_eq. by repeat case_decide; set_solver.
    + rewrite lookup_insert_ne by done. repeat case_decide; set_solver.
Qed.

Lemma for_contents_common (a b : gmap string value) keys : ∀ c : gmap string value,
  NoDup keys →
  (∀ k, k ∈ keys → is_Some (a !! k) ∧ is_Some (b !! k) ∧ c !! k = a !! k) →
  ∃ c', for_contents true true true true c (common_instruction a b <$> keys) = Ok c'
        ∧ ∀ i, c' !! i = if decide (i ∈ keys) then b !! i else c !! i.
Proof.
  induction keys as [|k keys IH]; intros c Hnodup Hin; simpl.
  - exists c. split; [done|]. intros i. done.
  - apply NoDup_cons in Hnodup as [Hk Hnodup].
    destruct (Hin k) as ([va Hva] & [vb Hvb] & Hck); [apply elem_of_cons; by left|].
    assert (∃ c1, instruction_contents true true true true c (common_instruction a b k)
                  = Ok c1
                  ∧ c1 !! k = b !! k
                  ∧ ∀ i, i ≠ k → c1 !! i = c !! i) as (c1 & -> & Hc1k & Hc1).
    { unfold common_instruction, py_eq. rewrite Hva, Hvb. simpl.
      destruct (decide (va = vb)) as [->|Hne].
      - rewrite bool_decide_eq_true_2 by done. exists c.
        unfold instruction_contents. simpl. split; [done|]. split; [congruence|done].
      - rewrite bool_decide_eq_false_2 by done. exists (<[k := vb]> c).
        unfold instruction_contents. simpl. split; [done|].
        split; [by rewrite lookup_insert_eq|].
        intros i Hi. by rewrite lookup_insert_ne. }
    destruct (IH c1 Hnodup) as (c' & Hfor & Hc').
    { intros k' Hk'. destruct (Hin k') as (? & ? & Hc); [apply elem_of_cons; by right|].
      repeat split; [done..|]. rewrite Hc1; [done|]. by intros ->. }
    exists c'. split; [done|]. intros i. rewrite Hc'.
    destruct (decide (i = k)) as [->|Hne].
    + rewrite Hc1k. by repeat case_decide; set_solver.
    + rewrite Hc1 by done. repeat case_decide; set_solver.
Qed.

Lemma for_contents_auto_instructions (a b : gmap string value) :
  for_contents true true true true a (auto_instructions a b) = Ok b.
Proof.
  unfold auto_instructions.
  destruct (for_contents_deleted (sorted (dom a ∖ dom b)) a) as (c1 & H1 & Hc1).
  { apply NoDup_sorted. }
  { intros k [Hk _]%elem_of_sorted%elem_of_difference. by apply elem_of_dom. }
  destruct (for_contents_added b (sorted (dom b ∖ dom a)) c1) as (c2 & H2 & Hc2).
  { intros k [Hk _]%elem_of_sorted%elem_of_difference. by apply elem_of_dom. }
  destruct (for_contents_common a b (sorted (dom a ∩ dom b)) c2) as (c3 & H3 & Hc3).
  { apply NoDup_sorted. }
  { intros k [Hka Hkb]%elem_of_sorted%elem_of_intersection.
    split; [by apply elem_of_dom|]. split; [by apply elem_of_dom|].
    rewrite Hc2, Hc1.
    rewrite decide_False by (rewrite elem_of_sorted; set_solver).
    rewrite decide_False by (rewrite elem_of_sorted; set_solver). done. }
  rewrite for_contents_app, H1. rewrite for_contents_app, H2, H3. f_equal.
  apply map_eq. intros i. rewrite Hc3, Hc2, Hc1.
  assert (i ∈ dom a ↔ is_Some (a !! i)) as Hda by apply elem_of_dom.
  assert (i ∈ dom b ↔ is_Some (b !! i)) as Hdb by apply elem_of_dom.
  destruct (a !! i) as [va|] eqn:Ha, (b !! i) as [vb|] eqn:Hb;
    repeat case_decide; try done;
    rewrite ?elem_of_sorted, ?elem_of_difference, ?elem_of_intersection in *;
    rewrite ?is_Some_alt in *; tauto.
Qed.

Lemma for_contents_all_Keep aK diff : ∀ c c' : gmap string value,
  forallb (λ d : instruction, String.eqb d.1.1 "k") diff = true →
  for_contents true true true aK c diff = Ok c' → c' = c.
Proof.
  induction diff as [|d diff IH]; intros c c'; simpl; [by intros _ [= ->]|].
  intros [Hd Hdiff]%andb_true_iff. unfold instruction_contents.
  apply String.eqb_eq in Hd. rewrite Hd. simpl.
  destruct aK; simpl; [by apply IH|done].
Qed.

Lemma auto_instructions_same (a : gmap string value) :
  forallb (λ d : instruction, String.eqb d.1.1 "k") (auto_instructions a a) = true.
Proof.
  unfold auto_instructions.
  rewrite !sorted_empty by set_solver. simpl.
  apply forallb_forall. intros d Hd. apply list_elem_of_In in Hd.
  apply list_elem_of_fmap in Hd as (k & -> & _).
  unfold common_instruction, py_eq. by rewrite bool_decide_eq_true_2.
Qed.

(** C1, as the code has it: the auto-accept pass of [DictDiff(A, B)]
    returns a list which [ApplyDiff], with every flag true, turns A into
    a dict equal to B (same keys, same values) whenever A and B differ.
    When A and B are equal the list holds Keep instructions only and
    [ApplyDiff] returns the unchanged signal [None], not a dict. *)
Theorem ApplyDiff_AutoDiff_yields_B (a b : gmap string value) title stdin
    (h : heap) (src : loc) :
  h !! src = Some a →
  ∃ diff,
    AutoDiff (MkDictDiff a b) title stdin = (stdin, Ok diff)
    ∧ (a ≠ b → returns_dict (ApplyDiff true true true true src diff h) b)
    ∧ (a = b → returns_None (ApplyDiff true true true true src diff h)).
Proof.
  intros Hsrc. exists (auto_instructions a b).
  split; [apply AutoDiff_auto|].
  destruct (ApplyDiff_contents true true true true h src a (auto_instructions a b) Hsrc)
    as (c' & Heq & Hc').
  pose proof (for_contents_auto_instructions a b) as Hfor.
  split.
  - intros Hne. unfold returns_dict. rewrite Heq. simpl.
    destruct (forallb _ (auto_instructions a b)) eqn:Hk.
    + exfalso. apply Hne. symmetry.
      by apply (for_contents_all_Keep true (auto_instructions a b) a b).
    + rewrite Hfor. exists (fresh (dom h)). split; [done|].
      rewrite lookup_insert_eq. f_equal. by apply Hc'.
  - intros <-. unfold returns_None. rewrite Heq. simpl.
    by rewrite auto_instructions_same.
Qed.

Lemma ApplyDiff_AutoDiff_yields_B_witness :
  ∃ diff,
    AutoDiff (MkDictDiff ex_a ex_b) "Test 1" [] = ([], Ok diff)
    ∧ (ex_a ≠ ex_b →
       returns_dict (ApplyDiff true true true true 1%positive diff
                       {[1%positive := ex_a]}) ex_b)
    ∧ (ex_a = ex_b →
       returns_None (ApplyDiff true true true true 1%positive diff
                       {[1%positive := ex_a]})).
Proof.
  apply (ApplyDiff_AutoDiff_yields_B ex_a ex_b "Test 1" []
           {[1%positive := ex_a]} 1%positive).
  vm_compute. reflexivity.
Defined.

(** C1 as stated fails when the two dicts are equal: the pass returns
    Keep instructions only, and [ApplyDiff] returns [None] where the
    claim has a mapping equal to B. *)
Lemma ApplyDiff_AutoDiff_yields_B_counterexample :
  AutoDiff (MkDictDiff {["Bob" := VInt 20]} {["Bob" := VInt 20]}) "Test" []
    = ([], Ok [("k", "Bob", VInt 20)])
  ∧ returns_None (ApplyDiff true true true true 1%positive
                    [("k", "Bob", VInt 20)] {[1%positive := {["Bob" := VInt 20]}]})
  ∧ ¬ returns_dict (ApplyDiff true true true true 1%positive
                      [("k", "Bob", VInt 20)] {[1%positive := {["Bob" := VInt 20]}]})
                   {["Bob" := VInt 20]}.
Proof.
  split; [vm_compute; reflexivity|].
  split; [vm_compute; reflexivity|].
  intros (l & Hl & _). vm_compute in Hl. discriminate.
Qed.

(** ** The constructor *)

(** C9: the constructor raises TypeError, and builds no object, as soon
    as one of its arguments is a value other than [None] that is not a
    mapping; [None] and an omitted argument are taken as the empty
    dict. *)
Theorem DictDiff_init_invalid_input (a b : option pyarg) (v : value)
    (da db : gmap string value) :
  v ≠ VNone →
  (a = Some (ArgValue v) ∨ b = Some (ArgValue v) →
   ∃ msg, DictDiff_init a b = Raise (TypeError msg))
  ∧ DictDiff_init None None = Ok (MkDictDiff ∅ ∅)
  ∧ DictDiff_init (Some (ArgValue VNone)) (Some (ArgValue VNone))
    = Ok (MkDictDiff ∅ ∅)
  ∧ DictDiff_init (Some (ArgDict da)) None = Ok (MkDictDiff da ∅)
  ∧ DictDiff_init (Some (ArgDict da)) (Some (ArgValue VNone)) = Ok (MkDictDiff da ∅)
  ∧ DictDiff_init None (Some (ArgDict db)) = Ok (MkDictDiff ∅ db)
  ∧ DictDiff_init (Some (ArgValue VNone)) (Some (ArgDict db)) = Ok (MkDictDiff ∅ db)
  ∧ DictDiff_init (Some (ArgDict da)) (Some (ArgDict db)) = Ok (MkDictDiff da db).
Proof.
  intros Hv. split; [|by repeat split].
  unfold DictDiff_init. intros [-> | ->]; simpl.
  - destruct v; [done|eauto..].
  - destruct (none_to_empty (default (ArgValue VNone) a)); eauto;
      destruct v; [done|eauto..].
Qed.

Lemma DictDiff_init_invalid_input_witness :
  (∃ msg, DictDiff_init (Some (ArgDict ex_a)) (Some (ArgValue (VInt 7)))
          = Raise (TypeError msg))
  ∧ DictDiff_init (Some (ArgDict ex_a)) None = Ok (MkDictDiff ex_a ∅).
Proof.
  destruct (DictDiff_init_invalid_input (Some (ArgDict ex_a))
              (Some (ArgValue (VInt 7))) (VInt 7) ex_a ex_b)
    as (Hraise & _ & _ & Hnone & _).
  - discriminate.
  - split; [apply Hraise; by right|exact Hnone].
Defined.

(** * Further properties *)

(** ** [ApplyDiff]: outcome and contents *)

Lemma ApplyDiff_returns_dict aA aD aC aK (h : heap) (src : loc)
    (c c' : gmap string value) diff :
  h !! src = Some c →
  returns_dict (ApplyDiff aA aD aC aK src diff h) c'
  ↔ WasChanged diff = true ∧ for_contents aA aD aC aK c diff = Ok c'.
Proof.
  intros Hsrc.
  destruct (ApplyDiff_contents aA aD aC aK h src c diff Hsrc) as (c1 & Heq & Hc1).
  unfold returns_dict. rewrite Heq. simpl.
  rewrite forallb_keep_WasChanged in *.
  destruct (WasChanged diff); simpl in *.
  - destruct (for_contents aA aD aC aK c diff) as [c2|e] eqn:Hfor.
    + rewrite (Hc1 c2 eq_refl eq_refl). split.
      * intros (l & [= <-] & Hl). rewrite lookup_insert_eq in Hl.
        split; congruence.
      * intros [_ [= ->]]. exists (fresh (dom h)). by rewrite lookup_insert_eq.
    + split; [by intros (l & Hl & _)|by intros [_ ?]].
  - split; [by intros (l & Hl & _)|by intros [? _]].
Qed.

Lemma ApplyDiff_raises aA aD aC aK (h : heap) (src : loc)
    (c : gmap string value) diff e :
  h !! src = Some c →
  raises (ApplyDiff aA aD aC aK src diff h) e
  ↔ WasChanged diff = true ∧ for_contents aA aD aC aK c diff = Raise e.
Proof.
  intros Hsrc. unfold raises.
  rewrite (ApplyDiff_result _ _ _ _ h src c diff Hsrc).
  rewrite forallb_keep_WasChanged.
  destruct (WasChanged diff); simpl.
  - destruct (for_contents aA aD aC aK c diff); split;
      try done; try (by intros [_ ?]); try (by intros [= ->]).
    intros [_ [= ->]]. done.
  - split; [done|by intros [? _]].
Qed.

(** ** [ApplyDiff]: what the flags and the fields are used for *)

Lemma apply_instruction_allowed aA aD aC aK aA' aD' aC' aK' (ret : loc) d :
  allowed aA aD aC aK (action d) = allowed aA' aD' aC' aK' (action d) →
  apply_instruction aA aD aC aK ret d = apply_instruction aA' aD' aC' aK' ret d.
Proof.
  unfold allowed, action, apply_instruction.
  repeat match goal with
         | |- context [String.eqb ?x ?y] => destruct (String.eqb x y)
         end; try done; by intros ->.
Qed.

Lemma apply_for_ext aA aD aC aK aA' aD' aC' aK' (ret : loc)
    (f : instruction → instruction) diff (h : heap) :
  (∀ d, d ∈ diff →
        apply_instruction aA aD aC aK ret (f d)
        = apply_instruction aA' aD' aC' aK' ret d) →
  apply_for aA aD aC aK ret (f <$> diff) h = apply_for aA' aD' aC' aK' ret diff h.
Proof.
  revert h. induction diff as [|d diff IH]; intros h Hstep; simpl; [done|].
  unfold bind. rewrite Hstep by (apply elem_of_cons; by left).
  destruct (apply_instruction aA' aD' aC' aK' ret d h) as [h' [[]|e]]; [|done].
  apply IH. intros d' Hd'. apply Hstep, elem_of_cons. by right.
Qed.

Lemma ApplyDiff_ext aA aD aC aK aA' aD' aC' aK' (src : loc)
    (f : instruction → instruction) diff (h : heap) :
  (∀ d, String.eqb (f d).1.1 "k" = String.eqb d.1.1 "k") →
  (∀ ret d, d ∈ diff →
        apply_instruction aA aD aC aK ret (f d)
        = apply_instruction aA' aD' aC' aK' ret d) →
  ApplyDiff aA aD aC aK src (f <$> diff) h = ApplyDiff aA' aD' aC' aK' src diff h.
Proof.
  intros Hk Hstep. unfold ApplyDiff, bind.
  destruct (dict_copy src h) as [h' [ret|e]]; [|done].
  assert (forallb (λ d : instruction, String.eqb d.1.1 "k") (f <$> diff)
          = forallb (λ d : instruction, String.eqb d.1.1 "k") diff) as ->.
  { clear Hstep. induction diff as [|d diff IH]; csimpl; [done|]. by rewrite Hk, IH. }
  destruct (forallb _ diff); [done|].
  rewrite (apply_for_ext _ _ _ _ aA' aD' aC' aK'); [done|]. intros. by apply Hstep.
Qed.

Lemma ApplyDiff_same_allowed aA aD aC aK aA' aD' aC' aK' (src : loc) diff (h : heap) :
  (∀ d, d ∈ diff →
        allowed aA aD aC aK (action d) = allowed aA' aD' aC' aK' (action d)) →
  ApplyDiff aA aD aC aK src diff h = ApplyDiff aA' aD' aC' aK' src diff h.
Proof.
  intros Hallowed. rewrite <- (list_fmap_id diff) at 1.
  apply ApplyDiff_ext; [done|]. intros ret d Hd. simpl.
  by apply apply_instruction_allowed, Hallowed.
Qed.

(** X1: a flag matters only when the list holds an instruction of its
    kind. A list without Add instructions is applied the same way (same
    store, same result or error) whatever [allowAdd] is, and likewise for
    Delete and [allowDelete], Edit and [allowChange], Keep and
    [allowKeep]. *)
Theorem ApplyDiff_flag_of_absent_kind aA aD aC aK (src : loc) diff (h : heap) :
  ((∀ d, d ∈ diff → action d ≠ "a") →
   ApplyDiff aA aD aC aK src diff h = ApplyDiff (negb aA) aD aC aK src diff h)
  ∧ ((∀ d, d ∈ diff → action d ≠ "d") →
     ApplyDiff aA aD aC aK src diff h = ApplyDiff aA (negb aD) aC aK src diff h)
  ∧ ((∀ d, d ∈ diff → action d ≠ "e") →
     ApplyDiff aA aD aC aK src diff h = ApplyDiff aA aD (negb aC) aK src diff h)
  ∧ ((∀ d, d ∈ diff → action d ≠ "k") →
     ApplyDiff aA aD aC aK src diff h = ApplyDiff aA aD aC (negb aK) src diff h).
Proof.
  repeat split; intros Hno; apply ApplyDiff_same_allowed; intros d Hd;
    specialize (Hno d Hd); unfold allowed, action in *;
    repeat match goal with
           | |- context [String.eqb ?x ?y] => destruct (String.eqb_spec x y)
           end; done.
Qed.

(** X2: [ApplyDiff] reads neither the value of a Delete nor the key and
    the value of a Keep: with these fields erased the list is applied the
    same way (same store, same result or error), for every source dict
    and every setting of the flags. *)
Theorem ApplyDiff_ignores_Delete_value_and_Keep aA aD aC aK (src : loc) diff (h : heap) :
  ApplyDiff aA aD aC aK src (erase_unused <$> diff) h
  = ApplyDiff aA aD aC aK src diff h.
Proof.
  apply ApplyDiff_ext.
  - intros [[l k] v]. unfold erase_unused. simpl.
    destruct (String.eqb_spec l "d") as [->|]; [done|].
    by destruct (String.eqb l "k") eqn:Hk.
  - intros ret [[l k] v] _. unfold erase_unused, apply_instruction. simpl.
    destruct (String.eqb l "d") eqn:Hd; simpl; [done|].
    destruct (String.eqb l "k") eqn:Hk; simpl; [|by rewrite Hd, Hk].
    by apply String.eqb_eq in Hk as ->.
Qed.

(** X3: [ApplyDiff] carries out Add and Edit the same way, [ret[k] = v]:
    it checks neither that the key of an Add is new nor that the key of
    an Edit exists. With [allowAdd] and [allowChange] both true, a list
    with Add and Edit exchanged is applied the same way (same store, same
    result or error) as the list itself. *)
Theorem ApplyDiff_Add_Edit_exchanged aD aK (src : loc) diff (h : heap) :
  ApplyDiff true aD true aK src (swap_add_edit <$> diff) h
  = ApplyDiff true aD true aK src diff h.
Proof.
  apply ApplyDiff_ext.
  - intros [[l k] v]. unfold swap_add_edit. simpl.
    destruct (String.eqb_spec l "a") as [->|]; [done|].
    by destruct (String.eqb_spec l "e") as [->|].
  - intros ret [[l k] v] _. unfold swap_add_edit, apply_instruction. simpl.
    destruct (String.eqb l "a") eqn:Ha; simpl.
    { by apply String.eqb_eq in Ha as ->. }
    destruct (String.eqb l "e") eqn:He; simpl; [|by rewrite Ha, He].
    by apply String.eqb_eq in He as ->.
Qed.

Lemma apply_for_drop_Keep aA aD aC (ret : loc) diff : ∀ h : heap,
  apply_for aA aD aC true ret (filter (λ d, action d ≠ "k") diff) h
  = apply_for aA aD aC true ret diff h.
Proof.
  induction diff as [|d diff IH]; intros h; [done|].
  rewrite filter_cons. destruct (decide (action d ≠ "k")) as [Hd|Hd]; simpl.
  - unfold bind.
    destruct (apply_instruction aA aD aC true ret d h) as [h' [[]|e]]; [|done].
    apply IH.
  - apply dec_stable in Hd. unfold action in Hd.
    unfold bind, apply_instruction. rewrite Hd. simpl. apply IH.
Qed.

(** X4: a Keep that is allowed does nothing. With [allowKeep] true, the
    list without its Keep instructions is applied the same way (same
    store, same result or error) as the whole list. *)
Theorem ApplyDiff_without_Keep aA aD aC (src : loc) diff (h : heap) :
  ApplyDiff aA aD aC true src (filter (λ d, action d ≠ "k") diff) h
  = ApplyDiff aA aD aC true src diff h.
Proof.
  unfold ApplyDiff, bind.
  destruct (dict_copy src h) as [h' [ret|e]]; [|done].
  assert (forallb (λ d : instruction, String.eqb d.1.1 "k")
            (filter (λ d, action d ≠ "k") diff)
          = forallb (λ d : instruction, String.eqb d.1.1 "k") diff) as ->.
  { induction diff as [|d diff IH]; [done|]. rewrite filter_cons.
    destruct (decide (action d ≠ "k")) as [Hd|Hd]; simpl.
    - unfold action in Hd. apply String.eqb_neq in Hd. by rewrite Hd.
    - apply dec_stable in Hd. unfold action in Hd. rewrite Hd. simpl. exact IH. }
  destruct (forallb _ diff); [done|]. by rewrite apply_for_drop_Keep.
Qed.

(** ** [ApplyDiff]: composition and unknown codes *)

Lemma WasChanged_app diff1 diff2 :
  WasChanged (diff1 ++ diff2) = WasChanged diff1 || WasChanged diff2.
Proof. unfold WasChanged. apply existsb_app. Qed.

(** X5: applying two lists one after the other is applying their
    concatenation. When [ApplyDiff(src, diff1)] returns a dict and
    [diff2] is not made of Keep instructions only, applying [diff2] to
    that dict returns the same contents, or raises the same error, as
    applying [diff1 ++ diff2] to [src]. *)
Theorem ApplyDiff_app aA aD aC aK (h : heap) (src l1 : loc)
    (c c1 : gmap string value) diff1 diff2 :
  h !! src = Some c →
  WasChanged diff2 = true →
  (ApplyDiff aA aD aC aK src diff1 h).2 = Ok (Some l1) →
  (ApplyDiff aA aD aC aK src diff1 h).1 !! l1 = Some c1 →
  (∀ c2, returns_dict (ApplyDiff aA aD aC aK l1 diff2
                         (ApplyDiff aA aD aC aK src diff1 h).1) c2
         ↔ returns_dict (ApplyDiff aA aD aC aK src (diff1 ++ diff2) h) c2)
  ∧ (∀ e, raises (ApplyDiff aA aD aC aK l1 diff2
                    (ApplyDiff aA aD aC aK src diff1 h).1) e
          ↔ raises (ApplyDiff aA aD aC aK src (diff1 ++ diff2) h) e).
Proof.
  intros Hsrc Hch2 Hret Hl1.
  assert (returns_dict (ApplyDiff aA aD aC aK src diff1 h) c1) as H1
    by (exists l1; done).
  apply (ApplyDiff_returns_dict _ _ _ _ h src c c1 diff1 Hsrc) in H1
    as [Hch1 Hfor1].
  split.
  - intros c2.
    rewrite (ApplyDiff_returns_dict _ _ _ _ _ l1 c1 c2 diff2 Hl1).
    rewrite (ApplyDiff_returns_dict _ _ _ _ h src c c2 _ Hsrc).
    rewrite WasChanged_app, for_contents_app, Hfor1, Hch1, Hch2. done.
  - intros e.
    rewrite (ApplyDiff_raises _ _ _ _ _ l1 c1 diff2 e Hl1).
    rewrite (ApplyDiff_raises _ _ _ _ h src c _ e Hsrc).
    rewrite WasChanged_app, for_contents_app, Hfor1, Hch1, Hch2. done.
Qed.

Lemma ApplyDiff_app_witness :
  returns_dict
    (ApplyDiff true true true true 2%positive [("a", "David", VInt 40)]
       (ApplyDiff true true true true 1%positive [("d", "Charlie", VStr "")]
          {[1%positive := ex_a]}).1)
    (<["David" := VInt 40]> (delete "Charlie" ex_a))
  ↔ returns_dict
      (ApplyDiff true true true true 1%positive
         ([("d", "Charlie", VStr "")] ++ [("a", "David", VInt 40)])
         {[1%positive := ex_a]})
      (<["David" := VInt 40]> (delete "Charlie" ex_a)).
Proof.
  destruct (ApplyDiff_app true true true true {[1%positive := ex_a]}
              1%positive 2%positive ex_a (delete "Charlie" ex_a)
              [("d", "Charlie", VStr "")] [("a", "David", VInt 40)])
    as [Hdict _].
  - vm_compute. reflexivity.
  - reflexivity.
  - vm_compute. reflexivity.
  - vm_compute. reflexivity.
  - apply Hdict.
Defined.

Lemma for_contents_unknown aA aD aC aK diff d : ∀ c : gmap string value,
  d ∈ diff →
  action d ∉ ["k"; "a"; "d"; "e"] →
  ∃ e, for_contents aA aD aC aK c diff = Raise e.
Proof.
  intros c Hin Hd. revert c.
  induction diff as [|d0 diff IH]; intros c; [by apply elem_of_nil in Hin|].
  simpl. destruct (instruction_contents aA aD aC aK c d0) as [c'|e] eqn:Hstep;
    [|by eauto].
  apply elem_of_cons in Hin as [<-|Hin]; [|by apply IH].
  exfalso. unfold instruction_contents, action in *.
  repeat match type of Hstep with
         | context [String.eqb ?x ?y] => destruct (String.eqb_spec x y)
         end; try done; apply Hd; set_solver.
Qed.

(** X6: an instruction whose code is none of k, a, d, e makes the call
    fail whatever the flags: a list that holds one never returns, and a
    list that starts with one raises UnrecognizedInstruction for this
    code. *)
Theorem ApplyDiff_unknown_code aA aD aC aK (h : heap) (src : loc)
    (c : gmap string value) diff d :
  h !! src = Some c →
  d ∈ diff →
  action d ∉ ["k"; "a"; "d"; "e"] →
  (∃ e, raises (ApplyDiff aA aD aC aK src diff h) e)
  ∧ ∀ rest, raises (ApplyDiff aA aD aC aK src (d :: rest) h)
                   (UnrecognizedInstruction (action d)).
Proof.
  intros Hsrc Hin Hd.
  assert (action d ≠ "k") as Hk by (intros Heq; apply Hd; rewrite Heq; set_solver).
  split.
  - destruct (for_contents_unknown aA aD aC aK diff d c Hin Hd) as [e He].
    exists e. apply (ApplyDiff_raises _ _ _ _ h src c diff e Hsrc). split; [|done].
    apply WasChanged_true. eauto.
  - intros rest. apply (ApplyDiff_raises _ _ _ _ h src c _ _ Hsrc). split.
    + apply WasChanged_true. exists d. split; [apply elem_of_cons; by left|done].
    + simpl. unfold instruction_contents, action in *.
      repeat match goal with
             | |- context [String.eqb ?x ?y] => destruct (String.eqb_spec x y)
             end; try done; exfalso; apply Hd; set_solver.
Qed.

Lemma ApplyDiff_unknown_code_witness :
  (∃ e, raises (ApplyDiff true true true true 1%positive
                  [("a", "David", VInt 40); ("x", "Bob", VNone)]
                  {[1%positive := ex_a]}) e)
  ∧ ∀ rest, raises (ApplyDiff true true true true 1%positive
                      (("x", "Bob", VNone) :: rest) {[1%positive := ex_a]})
                   (UnrecognizedInstruction "x").
Proof.
  apply (ApplyDiff_unknown_code true true true true {[1%positive := ex_a]}
           1%positive ex_a [("a", "David", VInt 40); ("x", "Bob", VNone)]
           ("x", "Bob", VNone)).
  - vm_compute. reflexivity.
  - apply elem_of_cons. right. apply elem_of_cons. by left.
  - unfold action. simpl. intros Hx.
    repeat (apply elem_of_cons in Hx as [Hx|Hx]; [discriminate|]).
    by apply elem_of_nil in Hx.
Defined.

(** ** The auto-accept list: change test, value fields, other targets *)

(** X7: [WasChanged] of the list of the auto-accept pass tells whether
    the two dicts differ: it is true exactly when A and B are not
    equal. *)
Theorem AutoDiff_WasChanged (a b : gmap string value) title stdin :
  ∃ diff,
    AutoDiff (MkDictDiff a b) title stdin = (stdin, Ok diff)
    ∧ (WasChanged diff = true ↔ a ≠ b).
Proof.
  exists (auto_instructions a b). split; [apply AutoDiff_auto|].
  pose proof (forallb_keep_WasChanged (auto_instructions a b)) as Hk.
  split.
  - intros Hch <-. rewrite auto_instructions_same, Hch in Hk. done.
  - intros Hne. destruct (WasChanged (auto_instructions a b)); [done|].
    exfalso. apply Hne. symmetry.
    apply (for_contents_all_Keep true (auto_instructions a b) a b Hk).
    apply for_contents_auto_instructions.
Qed.

(** X8: the value fields of the list of the auto-accept pass. An Add, an
    Edit and a Keep carry the value B has for the key (for a Keep that is
    also the value A has); a Delete carries the empty string, for a key
    of A that B does not have. *)
Theorem AutoDiff_value_fields (a b : gmap string value) title stdin :
  ∃ diff,
    AutoDiff (MkDictDiff a b) title stdin = (stdin, Ok diff)
    ∧ Forall (λ d,
        (action d = "d" → d.2 = VStr "" ∧ ikey d ∈ dom a ∖ dom b)
        ∧ (action d ≠ "d" → b !! ikey d = Some d.2)
        ∧ (action d = "k" → a !! ikey d = Some d.2)) diff.
Proof.
  exists (auto_instructions a b). split; [apply AutoDiff_auto|].
  unfold auto_instructions. rewrite !Forall_app, !Forall_fmap.
  repeat split; apply Forall_forall; intros k Hk; simpl.
  - apply elem_of_sorted in Hk. unfold action, ikey. simpl. by repeat split.
  - apply elem_of_sorted, elem_of_difference in Hk as [[v Hv]%elem_of_dom _].
    unfold added_instruction, action, ikey. simpl. rewrite Hv. by repeat split.
  - apply elem_of_sorted, elem_of_intersection in Hk
      as [[va Hva]%elem_of_dom [vb Hvb]%elem_of_dom].
    unfold common_instruction, py_eq, action, ikey. rewrite Hva, Hvb. simpl.
    destruct (decide (va = vb)) as [->|Hne].
    + rewrite bool_decide_eq_true_2 by done. simpl. by repeat split.
    + rewrite bool_decide_eq_false_2 by done. simpl. by repeat split.
Qed.

Lemma for_contents_common_any (a b : gmap string value) keys :
  ∀ c : gmap string value,
  (∀ k, k ∈ keys → is_Some (a !! k) ∧ is_Some (b !! k)) →
  ∃ c', for_contents true true true true c (common_instruction a b <$> keys) = Ok c'
        ∧ ∀ i, c' !! i = if decide (i ∈ keys ∧ a !! i ≠ b !! i)
                         then b !! i else c !! i.
Proof.
  induction keys as [|k keys IH]; intros c Hin; simpl.
  - exists c. split; [done|]. intros i. done.
  - destruct (Hin k) as ([va Hva] & [vb Hvb]); [apply elem_of_cons; by left|].
    assert (∀ k', k' ∈ keys → is_Some (a !! k') ∧ is_Some (b !! k')) as Hin'.
    { intros k' Hk'. apply Hin, elem_of_cons. by right. }
    unfold common_instruction at 1, py_eq. rewrite Hva, Hvb. simpl.
    destruct (decide (va = vb)) as [->|Hne].
    + rewrite bool_decide_eq_true_2 by done.
      unfold instruction_contents. simpl.
      destruct (IH c Hin') as (c' & Hfor & Hc'). exists c'. split; [exact Hfor|].
      intros i. rewrite Hc'.
      destruct (decide (i = k)) as [->|Hik].
      * rewrite !decide_False; [done| |]; intros [_ Hx]; congruence.
      * repeat case_decide; try done; exfalso; set_solver.
    + rewrite bool_decide_eq_false_2 by done.
      unfold instruction_contents. simpl.
      destruct (IH (<[k := vb]> c) Hin') as (c' & Hfor & Hc'). exists c'.
      split; [exact Hfor|]. intros i. rewrite Hc'.
      destruct (decide (i = k)) as [->|Hik].
      * rewrite lookup_insert_eq.
        rewrite (decide_True (P := k ∈ k :: keys ∧ a !! k ≠ b !! k)).
        { by case_decide. }
        split; [apply elem_of_cons; by left|congruence].
      * rewrite lookup_insert_ne by done.
        repeat case_decide; try done; exfalso; set_solver.
Qed.

Lemma for_contents_deleted_missing keys : ∀ (c : gmap string value) k rest,
  NoDup keys →
  k ∈ keys →
  c !! k = None →
  ∃ k', k' ∈ keys ∧ c !! k' = None
        ∧ for_contents true true true true c
            ((deleted_instruction <$> keys) ++ rest) = Raise (KeyNotFound k').
Proof.
  induction keys as [|k0 keys IH]; intros c k rest Hnodup Hk Hck.
  { by apply elem_of_nil in Hk. }
  apply NoDup_cons in Hnodup as [Hk0 Hnodup]. simpl.
  unfold instruction_contents. simpl.
  destruct (c !! k0) as [v0|] eqn:Hck0.
  - apply elem_of_cons in Hk as [->|Hk]; [congruence|].
    destruct (IH (delete k0 c) k rest Hnodup Hk) as (k' & Hk' & Hck' & Hfor).
    { rewrite lookup_delete_ne; [done|]. by intros ->. }
    exists k'. split; [apply elem_of_cons; by right|]. split; [|done].
    rewrite lookup_delete_ne in Hck'; [done|]. by intros ->.
  - exists k0. split; [apply elem_of_cons; by left|]. done.
Qed.

(** X9: the list of the auto-accept pass of [DictDiff(A, B)] applied to
    any dict C, with A and B different and every flag true. When C has
    every key that A has and B has not, the call returns a dict that
    agrees with B on every key where A and B differ and with C on every
    other key. When C lacks one of these keys, the call raises
    KeyNotFound for such a key. *)
Theorem ApplyDiff_AutoDiff_on_any_dict (a b c : gmap string value) title stdin
    (h : heap) (src : loc) :
  h !! src = Some c →
  a ≠ b →
  ∃ diff,
    AutoDiff (MkDictDiff a b) title stdin = (stdin, Ok diff)
    ∧ ((∀ k, k ∈ dom a ∖ dom b → k ∈ dom c) →
       ∃ c', returns_dict (ApplyDiff true true true true src diff h) c'
             ∧ ∀ i, c' !! i = if decide (a !! i = b !! i) then c !! i else b !! i)
    ∧ ((∃ k, k ∈ dom a ∖ dom b ∧ k ∉ dom c) →
       ∃ k, k ∈ dom a ∖ dom b ∧ (k ∉ dom c)
            ∧ raises (ApplyDiff true true true true src diff h) (KeyNotFound k)).
Proof.
  intros Hsrc Hne. exists (auto_instructions a b).
  split; [apply AutoDiff_auto|].
  assert (WasChanged (auto_instructions a b) = true) as Hch.
  { pose proof (forallb_keep_WasChanged (auto_instructions a b)) as Hk.
    destruct (WasChanged (auto_instructions a b)); [done|].
    exfalso. apply Hne. symmetry.
    apply (for_contents_all_Keep true (auto_instructions a b) a b Hk).
    apply for_contents_auto_instructions. }
  split.
  - intros Hsub.
    destruct (for_contents_deleted (sorted (dom a ∖ dom b)) c) as (c1 & H1 & Hc1).
    { apply NoDup_sorted. }
    { intros k Hk. apply elem_of_sorted in Hk. by apply elem_of_dom, Hsub. }
    destruct (for_contents_added b (sorted (dom b ∖ dom a)) c1) as (c2 & H2 & Hc2).
    { intros k [Hk _]%elem_of_sorted%elem_of_difference. by apply elem_of_dom. }
    destruct (for_contents_common_any a b (sorted (dom a ∩ dom b)) c2)
      as (c3 & H3 & Hc3).
    { intros k [Hka Hkb]%elem_of_sorted%elem_of_intersection.
      split; by apply elem_of_dom. }
    exists c3. split.
    + apply (ApplyDiff_returns_dict _ _ _ _ h src c c3 _ Hsrc). split; [done|].
      unfold auto_instructions.
      rewrite for_contents_app, H1. by rewrite for_contents_app, H2, H3.
    + intros i. rewrite Hc3, Hc2, Hc1.
      assert (i ∈ dom a ↔ is_Some (a !! i)) as Hda by apply elem_of_dom.
      assert (i ∈ dom b ↔ is_Some (b !! i)) as Hdb by apply elem_of_dom.
      destruct (a !! i) as [va|] eqn:Ha, (b !! i) as [vb|] eqn:Hb;
        repeat case_decide; try done;
        rewrite ?elem_of_sorted, ?elem_of_difference, ?elem_of_intersection in *;
        rewrite ?is_Some_alt in *; try tauto; try congruence.
  - intros (k & Hk & Hkc).
    destruct (for_contents_deleted_missing (sorted (dom a ∖ dom b)) c k
                ((added_instruction b <$> sorted (dom b ∖ dom a))
                 ++ (common_instruction a b <$> sorted (dom a ∩ dom b))))
      as (k' & Hk' & Hck' & Hfor).
    { apply NoDup_sorted. }
    { by apply elem_of_sorted. }
    { by apply not_elem_of_dom. }
    exists k'. split; [by apply elem_of_sorted|]. split; [by apply not_elem_of_dom|].
    by apply (ApplyDiff_raises _ _ _ _ h src c _ _ Hsrc).
Qed.

Lemma ApplyDiff_AutoDiff_on_any_dict_witness :
  ∃ diff,
    AutoDiff (MkDictDiff ex_a ex_b) "Test 1" [] = ([], Ok diff)
    ∧ ∃ c', returns_dict (ApplyDiff true true true true 1%positive diff
                            {[1%positive := <["Eve" := VInt 5]> ex_a]}) c'
            ∧ c' !! "Eve" = Some (VInt 5) ∧ c' !! "Alice" = Some (VInt 15).
Proof.
  destruct (ApplyDiff_AutoDiff_on_any_dict ex_a ex_b (<["Eve" := VInt 5]> ex_a)
              "Test 1" [] {[1%positive := <["Eve" := VInt 5]> ex_a]} 1%positive)
    as (diff & Hdiff & Hok & _).
  - vm_compute. reflexivity.
  - intros Heq. apply (f_equal (λ m : gmap string value, m !! "David")) in Heq.
    vm_compute in Heq. discriminate.
  - exists diff. split; [exact Hdiff|].
    destruct Hok as (c' & Hret & Hc').
    { intros k Hk. apply elem_of_difference in Hk as [Hk _].
      apply elem_of_dom in Hk. apply elem_of_dom.
      destruct (decide (k = "Eve")) as [->|Hne]; [by eexists|].
      by rewrite lookup_insert_ne. }
    exists c'. split; [exact Hret|].
    split; rewrite Hc'; vm_compute; reflexivity.
Defined.

(** ** Answers at the per-key prompt *)

Lemma ascii_lower_idemp c : ascii_lower (ascii_lower c) = ascii_lower c.
Proof. destruct c as [[] [] [] [] [] [] [] []]; reflexivity. Qed.

Lemma lower_idemp s : lower (lower s) = lower s.
Proof. induction s as [|c s IH]; simpl; [done|]. by rewrite ascii_lower_idemp, IH. Qed.

Lemma length_lower s : String.length (lower s) = String.length s.
Proof. induction s as [|c s IH]; simpl; [done|]. by rewrite IH. Qed.

Lemma row_turn_lower k left right status which :
  row_turn k left right status (lower which) = row_turn k left right status which.
Proof. unfold row_turn. by rewrite lower_idemp, length_lower. Qed.

(** X10: the per-key prompt does not tell upper case from lower case.
    With an operator, [_ShowRow] does with an answer what it does with
    the same answer in lower case, for every status. *)
Theorem _ShowRow_answer_case k maxkeylen left right status which rest :
  _ShowRow k maxkeylen left right status false (which :: rest)
  = _ShowRow k maxkeylen left right status false (lower which :: rest).
Proof. unfold _ShowRow. simpl. by rewrite row_turn_lower. Qed.

(** X11: an empty line at the per-key prompt is taken as "continue" on
    an unchanged row only, where it keeps the left value. On any other
    row it is not recognized: the prompt is repeated and the next line is
    read. *)
Theorem _ShowRow_empty_answer k maxkeylen left right status rest :
  _ShowRow k maxkeylen left right status false ("" :: rest)
  = if String.eqb status "Unchanged" then (rest, Ok (Some ("k", k, left)))
    else _ShowRow k maxkeylen left right status false rest.
Proof.
  unfold _ShowRow. simpl. unfold row_turn.
  destruct (String.eqb status "Unchanged"); reflexivity.
Qed.

(** X12: the answer [n] gives an Edit whatever the status of the row,
    an added or a deleted row included: the next line is read and becomes
    the value, as a str, with no conversion. When stdin ends after the
    [n], the call raises EOFError. *)
Theorem _ShowRow_new_value k maxkeylen left right status which val rest :
  lower which = "n" →
  _ShowRow k maxkeylen left right status false (which :: val :: rest)
    = (rest, Ok (Some ("e", k, VStr val)))
  ∧ _ShowRow k maxkeylen left right status false [which] = ([], Raise EOFError).
Proof.
  intros Hn.
  assert (row_turn k left right status which = EnterNewValue) as Hturn.
  { unfold row_turn. rewrite Hn.
    assert ((String.length which =? 0)%nat = false) as ->.
    { destruct which; [discriminate|done]. }
    by destruct (String.eqb status "Unchanged"). }
  unfold _ShowRow. simpl. rewrite Hturn. done.
Qed.

Lemma _ShowRow_new_value_witness :
  _ShowRow "David" 8 (VStr "") (VInt 40) "Added" false ("N" :: "41" :: ["c"])
    = (["c"], Ok (Some ("e", "David", VStr "41")))
  ∧ _ShowRow "David" 8 (VStr "") (VInt 40) "Added" false ["N"]
    = ([], Raise EOFError).
Proof.
  apply (_ShowRow_new_value "David" 8 (VStr "") (VInt 40) "Added" "N" "41" ["c"]).
  reflexivity.
Defined.

(** ** The save-or-redo prompt *)

Lemma row_turn_code k left right status which d :
  row_turn k left right status which = Return (Some d) →
  action d ∈ ["k"; "a"; "d"; "e"].
Proof.
  unfold row_turn.
  repeat match goal with
         | |- context [if ?c then _ else _] => destruct c
         end; intros [= <-]; unfold action; simpl; set_solver.
Qed.

Lemma _ShowRow_code k maxkeylen left right status autoaccept stdin stdin' d :
  _ShowRow k maxkeylen left right status autoaccept stdin = (stdin', Ok (Some d)) →
  action d ∈ ["k"; "a"; "d"; "e"].
Proof.
  assert (∀ s s', enter_new_value k s = (s', Ok (Some d)) →
                  action d ∈ ["k"; "a"; "d"; "e"]) as Hnew.
  { intros s s'. unfold enter_new_value, bind, input, pure.
    destruct s; [done|]. intros [= _ <-]. unfold action. simpl. set_solver. }
  unfold _ShowRow. destruct autoaccept.
  - destruct (row_turn k left right status (auto_which status)) eqn:Hturn.
    + unfold pure. intros [= _ ->]. by eapply row_turn_code.
    + apply Hnew.
    + done.
  - revert stdin'. induction stdin as [|which stdin IH]; intros stdin'; simpl; [done|].
    destruct (row_turn k left right status which) eqn:Hturn.
    + intros [= _ ->]. by eapply row_turn_code.
    + apply Hnew.
    + apply IH.
Qed.

Lemma for_keys_Forall (P : instruction → Prop) row keys :
  (∀ k stdin stdin' d, row k stdin = (stdin', Ok (Some d)) → P d) →
  ∀ ret stdin stdin' ret',
    Forall P ret →
    for_keys row keys ret stdin = (stdin', Ok ret') → Forall P ret'.
Proof.
  intros Hrow. induction keys as [|k keys IH]; intros ret stdin stdin' ret' Hret; simpl.
  - unfold pure. by intros [= _ <-].
  - unfold bind. destruct (row k stdin) as [s1 [zz|e]] eqn:Hk; [|done].
    apply IH. destruct zz as [d|]; simpl; [|done].
    apply Forall_app. split; [done|]. apply Forall_singleton. by eapply Hrow.
Qed.

Lemma getitem_then_Ok {B} (c : gmap string value) k
    (row : value → M (list string) B) stdin stdin' r :
  bind (getitem c k) row stdin = (stdin', Ok r) →
  ∃ v, c !! k = Some v ∧ row v stdin = (stdin', Ok r).
Proof.
  unfold bind, getitem. destruct (c !! k) as [v|]; simpl; [eauto|done].
Qed.

Lemma _ShowDiff_known self title autoaccept stdin stdin' ret :
  _ShowDiff self title autoaccept stdin = (stdin', Ok ret) →
  Forall (λ d, action d ∈ ["k"; "a"; "d"; "e"]) ret.
Proof.
  unfold _ShowDiff.
  destruct ((size (dom (A self)) =? 0)%nat && (size (dom (B self)) =? 0)%nat).
  { unfold pure. by intros [= _ <-]. }
  set (maxkeylen := max_list _). unfold bind.
  destruct (for_keys (row_deleted _ _ _) _ [] stdin) as [s1 [r1|e]] eqn:H1; [|done].
  destruct (for_keys (row_added _ _ _) _ r1 s1) as [s2 [r2|e]] eqn:H2; [|done].
  destruct (for_keys (row_common _ _ _) _ r2 s2) as [s3 [r3|e]] eqn:H3; [|done].
  unfold pure. intros [= _ <-].
  assert (Forall (λ d, action d ∈ ["k"; "a"; "d"; "e"]) r1) as Hr1.
  { eapply for_keys_Forall; [|apply Forall_nil_2|exact H1].
    intros k s s' d. unfold row_deleted. intros Hrow.
    apply getitem_then_Ok in Hrow as (v & _ & Hrow). by eapply _ShowRow_code. }
  assert (Forall (λ d, action d ∈ ["k"; "a"; "d"; "e"]) r2) as Hr2.
  { eapply for_keys_Forall; [|exact Hr1|exact H2].
    intros k s s' d. unfold row_added. intros Hrow.
    apply getitem_then_Ok in Hrow as (v & _ & Hrow). by eapply _ShowRow_code. }
  eapply for_keys_Forall; [|exact Hr2|exact H3].
  intros k s s' d. unfold row_common. intros Hrow.
  apply getitem_then_Ok in Hrow as (v & _ & Hrow).
  apply getitem_then_Ok in Hrow as (v' & _ & Hrow). by eapply _ShowRow_code.
Qed.

Lemma ShowDiff_loop_fuel self title : ∀ fuel fuel' stdin,
  (length stdin < fuel)%nat →
  (length stdin < fuel')%nat →
  ShowDiff_loop fuel self title false stdin
  = ShowDiff_loop fuel' self title false stdin.
Proof.
  induction fuel as [|fuel IH]; intros fuel' stdin Hfuel Hfuel'; [lia|].
  destruct fuel' as [|fuel']; [lia|]. simpl. unfold bind.
  destruct (_ShowDiff_stdin self title stdin) as [Hl1 _].
  destruct (_ShowDiff self title false stdin) as [s1 [ret|e]]; simpl in *; [|done].
  destruct (review_stdin ret s1) as [Hs2 _].
  destruct (review ret s1) as [s2 [[]|e]]; simpl in *; [|done]. subst s2.
  destruct (save_or_redo_ask_stdin s1) as [_ Hl3].
  destruct (save_or_redo_ask s1) as [s3 [[|]|e]]; simpl in *; [done| |done].
  specialize (Hl3 eq_refl). apply IH; lia.
Qed.

Lemma ShowDiff_answer self title stdin which rest ret :
  _ShowDiff self title false stdin = (which :: rest, Ok ret) →
  (outer_turn which = Some Save → ShowDiff self title false stdin = (rest, Ok ret))
  ∧ (outer_turn which = Some Redo →
     ShowDiff self title false stdin = ShowDiff self title false rest).
Proof.
  intros Hpass.
  pose proof (_ShowDiff_stdin self title stdin) as [Hlen _].
  rewrite Hpass in Hlen. simpl in Hlen.
  assert (review ret (which :: rest) = (which :: rest, Ok tt)) as Hreview.
  { apply review_known. by eapply _ShowDiff_known. }
  split; intros Hturn.
  - unfold ShowDiff. simpl. unfold bind. rewrite Hpass, Hreview. simpl.
    by rewrite Hturn.
  - unfold ShowDiff at 1. simpl. unfold bind. rewrite Hpass, Hreview. simpl.
    rewrite Hturn. unfold ShowDiff. apply ShowDiff_loop_fuel; lia.
Qed.

Lemma outer_turn_Save which :
  outer_turn which = Some Save ↔ which = "s" ∨ which = "".
Proof.
  unfold outer_turn.
  destruct (String.eqb_spec which "s") as [->|Hs]; simpl; [split; [by left|done]|].
  destruct which as [|c w]; [split; [by right|done]|].
  cbn [orb String.length Nat.eqb].
  destruct (String.eqb (String c w) "r"); (split; [done|by intros [?|?]]).
Qed.

Lemma outer_turn_Redo which : outer_turn which = Some Redo ↔ which = "r".
Proof.
  unfold outer_turn.
  destruct (String.eqb_spec which "s") as [->|Hs]; simpl; [done|].
  destruct which as [|c w]; [done|].
  cbn [orb String.length Nat.eqb].
  by destruct (String.eqb_spec (String c w) "r") as [->|Hr].
Qed.

(** X13: the prompt after a pass. A pass that ends at a line [s] or at
    an empty line is saved: [ShowDiff] returns its list. A pass that ends
    at a line [r] is discarded: [ShowDiff] returns whatever it returns on
    the lines after the [r], every key being asked again. The answers
    are read as they are: [s] and [r] in lower case only. *)
Theorem ShowDiff_save_or_redo self title stdin which rest ret :
  _ShowDiff self title false stdin = (which :: rest, Ok ret) →
  (which = "s" ∨ which = "" → ShowDiff self title false stdin = (rest, Ok ret))
  ∧ (which = "r" →
     ShowDiff self title false stdin = ShowDiff self title false rest)
  ∧ (outer_turn which = Some Save ↔ which = "s" ∨ which = "")
  ∧ (outer_turn which = Some Redo ↔ which = "r").
Proof.
  intros Hpass.
  destruct (ShowDiff_answer self title stdin which rest ret Hpass) as [Hsave Hredo].
  split; [|split; [|split]].
  - intros Hwhich. by apply Hsave, outer_turn_Save.
  - intros Hwhich. by apply Hredo, outer_turn_Redo.
  - apply outer_turn_Save.
  - apply outer_turn_Redo.
Qed.

Lemma ShowDiff_save_or_redo_witness :
  ShowDiff (MkDictDiff {["Alice" := VInt 10]} {["Alice" := VInt 15]}) "Test" false
    ["l"; "r"; "r"; "s"]
  = ShowDiff (MkDictDiff {["Alice" := VInt 10]} {["Alice" := VInt 15]}) "Test" false
      ["r"; "s"].
Proof.
  destruct (ShowDiff_save_or_redo
              (MkDictDiff {["Alice" := VInt 10]} {["Alice" := VInt 15]}) "Test"
              ["l"; "r"; "r"; "s"] "r" ["r"; "s"] [("k", "Alice", VInt 10)])
    as (_ & Hredo & _).
  - vm_compute. reflexivity.
  - apply Hredo. reflexivity.
Defined.

(** ** Whole passes with an operator *)

Lemma for_keys_answers row (answer : string → string)
    (f : string → option instruction) keys :
  (∀ k stdin, k ∈ keys → row k (answer k :: stdin) = (stdin, Ok (f k))) →
  ∀ ret (rest : list string),
    for_keys row keys ret ((answer <$> keys) ++ rest)%list
    = (rest, Ok (ret ++ omap f keys)%list).
Proof.
  induction keys as [|k keys IH]; intros Hrow ret rest; csimpl.
  - by rewrite app_nil_r.
  - unfold bind. rewrite Hrow by (apply elem_of_cons; by left).
    rewrite IH by (intros; apply Hrow; apply elem_of_cons; by right).
    destruct (f k) as [d|]; simpl; [|done]. by rewrite <- app_assoc.
Qed.

Lemma omap_Some_fmap (g : string → instruction) (keys : list string) :
  omap (λ k, Some (g k)) keys = g <$> keys.
Proof. induction keys as [|k keys IH]; csimpl; [done|]. by rewrite IH. Qed.

Lemma omap_None (keys : list string) :
  omap (λ _ : string, @None instruction) keys = [].
Proof. induction keys as [|k keys IH]; csimpl; done. Qed.

Lemma _ShowDiff_empty_dicts a b title autoaccept stdin :
  (size (dom a) =? 0)%nat && (size (dom b) =? 0)%nat = true →
  dom a ∖ dom b = ∅ ∧ dom b ∖ dom a = ∅ ∧ dom a ∩ dom b = ∅
  ∧ _ShowDiff (MkDictDiff a b) title autoaccept stdin = (stdin, Ok []).
Proof.
  intros Hempty. unfold _ShowDiff, A, B. simpl. rewrite Hempty.
  apply andb_true_iff in Hempty as [Ha%Nat.eqb_eq Hb%Nat.eqb_eq].
  apply size_empty_iff in Ha, Hb. apply leibniz_equiv in Ha, Hb.
  rewrite Ha, Hb. repeat split; set_solver.
Qed.

Lemma _ShowDiff_answers a b title
    (answer1 answer2 answer3 : string → string)
    (f1 f2 f3 : string → option instruction) (rest : list string) :
  (∀ k stdin maxkeylen, k ∈ dom a ∖ dom b →
     row_deleted (MkDictDiff a b) maxkeylen false k (answer1 k :: stdin)
     = (stdin, Ok (f1 k))) →
  (∀ k stdin maxkeylen, k ∈ dom b ∖ dom a →
     row_added (MkDictDiff a b) maxkeylen false k (answer2 k :: stdin)
     = (stdin, Ok (f2 k))) →
  (∀ k stdin maxkeylen, k ∈ dom a ∩ dom b →
     row_common (MkDictDiff a b) maxkeylen false k (answer3 k :: stdin)
     = (stdin, Ok (f3 k))) →
  _ShowDiff (MkDictDiff a b) title false
    (((answer1 <$> sorted (dom a ∖ dom b))
      ++ (answer2 <$> sorted (dom b ∖ dom a))
      ++ (answer3 <$> sorted (dom a ∩ dom b))) ++ rest)%list
  = (rest, Ok (omap f1 (sorted (dom a ∖ dom b))
               ++ omap f2 (sorted (dom b ∖ dom a))
               ++ omap f3 (sorted (dom a ∩ dom b)))%list).
Proof.
  intros H1 H2 H3.
  destruct ((size (dom a) =? 0)%nat && (size (dom b) =? 0)%nat) eqn:Hempty.
  - destruct (_ShowDiff_empty_dicts a b title false rest Hempty)
      as (E1 & E2 & E3 & Hpass).
    rewrite !(sorted_empty _ E1), !(sorted_empty _ E2), !(sorted_empty _ E3).
    exact Hpass.
  - unfold _ShowDiff, A, B. simpl. rewrite Hempty. unfold bind.
    rewrite <- !app_assoc.
    rewrite (for_keys_answers _ answer1 f1); cycle 1.
    { intros k s Hk. apply H1. by apply elem_of_sorted. }
    rewrite (for_keys_answers _ answer2 f2); cycle 1.
    { intros k s Hk. apply H2. by apply elem_of_sorted. }
    rewrite (for_keys_answers _ answer3 f3); cycle 1.
    { intros k s Hk. apply H3. by apply elem_of_sorted. }
    unfold pure. simpl. by rewrite <- app_assoc.
Qed.

(** X14: an operator who answers [r] on every deleted, added and
    different row and [c] on every unchanged row gets the list of the
    auto-accept pass: the pass reads exactly these answers and returns
    what [AutoDiff] returns, and so does [ShowDiff] when the next line
    is [s]. *)
Theorem ShowDiff_right_answers (a b : gmap string value) title (rest : list string) :
  ∃ diff,
    AutoDiff (MkDictDiff a b) title rest = (rest, Ok diff)
    ∧ _ShowDiff (MkDictDiff a b) title false (right_answers a b ++ rest)%list
      = (rest, Ok diff)
    ∧ ShowDiff (MkDictDiff a b) title false (right_answers a b ++ "s" :: rest)%list
      = (rest, Ok diff).
Proof.
  exists (auto_instructions a b). split; [apply AutoDiff_auto|].
  assert (∀ rest' : list string,
            _ShowDiff (MkDictDiff a b) title false (right_answers a b ++ rest')%list
                   = (rest', Ok (auto_instructions a b))) as Hpass.
  { intros rest'. unfold right_answers.
    rewrite (_ShowDiff_answers a b title _ _ _
               (λ k, Some (deleted_instruction k))
               (λ k, Some (added_instruction b k))
               (λ k, Some (common_instruction a b k))).
    - by rewrite !omap_Some_fmap.
    - intros k s m [Hk _]%elem_of_difference. apply elem_of_dom in Hk as [v Hv].
      unfold row_deleted, bind, getitem, A. simpl. by rewrite Hv.
    - intros k s m [Hk _]%elem_of_difference. apply elem_of_dom in Hk as [v Hv].
      unfold row_added, bind, getitem, B, added_instruction. simpl. by rewrite Hv.
    - intros k s m [[va Hva]%elem_of_dom [vb Hvb]%elem_of_dom]%elem_of_intersection.
      unfold row_common, bind, getitem, A, B, common_instruction. simpl.
      rewrite Hva, Hvb. simpl. by destruct (py_eq va vb). }
  split; [apply Hpass|].
  destruct (ShowDiff_answer (MkDictDiff a b) title
              (right_answers a b ++ "s" :: rest)%list "s" rest (auto_instructions a b))
    as [Hsave _]; [apply Hpass|].
  by apply Hsave.
Qed.

(** X15: an operator who answers [l] on every deleted, added and
    different row and [c] on every unchanged row keeps A: the pass
    returns one Keep, with the value A has, for every key of A, the
    deleted keys first, and nothing for the keys that only B has. The
    list is one that [WasChanged] reports as unchanged. *)
Theorem ShowDiff_left_answers (a b : gmap string value) title (rest : list string) :
  _ShowDiff (MkDictDiff a b) title false (left_answers a b ++ rest)%list
    = (rest, Ok ((kept_instruction a <$> sorted (dom a ∖ dom b))
                 ++ (kept_instruction a <$> sorted (dom a ∩ dom b)))%list)
  ∧ WasChanged ((kept_instruction a <$> sorted (dom a ∖ dom b))
                ++ (kept_instruction a <$> sorted (dom a ∩ dom b))) = false.
Proof.
  split.
  - unfold left_answers.
    rewrite (_ShowDiff_answers a b title _ _ _
               (λ k, Some (kept_instruction a k))
               (λ _, None)
               (λ k, Some (kept_instruction a k))).
    + by rewrite !omap_Some_fmap, omap_None.
    + intros k s m [Hk _]%elem_of_difference. apply elem_of_dom in Hk as [v Hv].
      unfold row_deleted, bind, getitem, A, kept_instruction. simpl. by rewrite Hv.
    + intros k s m [Hk _]%elem_of_difference. apply elem_of_dom in Hk as [v Hv].
      unfold row_added, bind, getitem, B. simpl. by rewrite Hv.
    + intros k s m [[va Hva]%elem_of_dom [vb Hvb]%elem_of_dom]%elem_of_intersection.
      unfold row_common, bind, getitem, A, B, kept_instruction. simpl.
      rewrite Hva, Hvb. simpl. by destruct (py_eq va vb).
  - apply WasChanged_false. rewrite Forall_app, !Forall_fmap.
    split; by apply Forall_forall.
Qed.

(** ** Edge cases of a pass *)

(** X16: answering [d] on an added row gives a Delete for a key that A
    does not have, with the empty string as value; [ApplyDiff] on A with
    [allowDelete] true then fails with KeyNotFound at this instruction,
    when it comes first in the list. *)
Theorem Added_delete_fails_on_A (a b : gmap string value) maxkeylen k v which rest
    aA aC aK (h : heap) (src : loc) suf :
  a !! k = None →
  b !! k = Some v →
  lower which = "d" →
  h !! src = Some a →
  row_added (MkDictDiff a b) maxkeylen false k (which :: rest)
    = (rest, Ok (Some ("d", k, VStr "")))
  ∧ raises (ApplyDiff aA true aC aK src (("d", k, VStr "") :: suf) h)
           (KeyNotFound k).
Proof.
  intros Ha Hb Hwhich Hsrc. split.
  - unfold row_added, bind, getitem, B. simpl. rewrite Hb. simpl.
    unfold _ShowRow. simpl. unfold row_turn. simpl. by rewrite Hwhich.
  - apply (ApplyDiff_raises _ _ _ _ h src a _ _ Hsrc). split; [done|].
    simpl. unfold instruction_contents. simpl. by rewrite Ha.
Qed.

Lemma Added_delete_fails_on_A_witness :
  row_added (MkDictDiff ex_a ex_b) 8 false "David" ("D" :: ["c"])
    = (["c"], Ok (Some ("d", "David", VStr "")))
  ∧ raises (ApplyDiff true true true true 1%positive
              (("d", "David", VStr "") :: [("k", "Bob", VInt 20)])
              {[1%positive := ex_a]})
           (KeyNotFound "David").
Proof.
  apply (Added_delete_fails_on_A ex_a ex_b 8 "David" (VInt 40) "D" ["c"]
           true true true {[1%positive := ex_a]} 1%positive
           [("k", "Bob", VInt 20)]).
  - vm_compute. reflexivity.
  - vm_compute. reflexivity.
  - reflexivity.
  - vm_compute. reflexivity.
Defined.

Lemma for_keys_EOF row keys ret :
  (∀ k, k ∈ keys → row k [] = ([], Raise EOFError)) →
  for_keys row keys ret [] =
    match keys with
    | [] => ([], Ok ret)
    | _ :: _ => ([], Raise EOFError)
    end.
Proof.
  destruct keys as [|k keys]; intros Hrow; simpl; [done|].
  unfold bind. rewrite Hrow by (apply elem_of_cons; by left). done.
Qed.

Lemma sorted_nil_inv (s : gset string) : sorted s = [] → s = ∅.
Proof.
  intros Hnil. apply leibniz_equiv, elements_empty_inv.
  apply Permutation_nil_r. by rewrite <- sorted_Permutation, Hnil.
Qed.

(** X17: with an operator and no line on stdin, a pass over dicts that
    have at least one key between them returns no list: it raises
    EOFError at the first row. (Over two empty dicts it returns the empty
    list without reading.) *)
Theorem _ShowDiff_no_input (a b : gmap string value) title :
  dom a ∪ dom b ≠ ∅ →
  _ShowDiff (MkDictDiff a b) title false [] = ([], Raise EOFError)
  ∧ ∀ autoaccept stdin,
      _ShowDiff (MkDictDiff ∅ ∅) title autoaccept stdin = (stdin, Ok []).
Proof.
  intros Hne. split.
  - unfold _ShowDiff, A, B. simpl.
    destruct ((size (dom a) =? 0)%nat && (size (dom b) =? 0)%nat) eqn:Hempty.
    { exfalso. apply Hne.
      apply andb_true_iff in Hempty as [Ha%Nat.eqb_eq Hb%Nat.eqb_eq].
      apply size_empty_iff in Ha, Hb. apply leibniz_equiv in Ha, Hb.
      rewrite Ha, Hb. set_solver. }
    set (maxkeylen := max_list _). unfold bind.
    rewrite for_keys_EOF; cycle 1.
    { intros k [Hk _]%elem_of_sorted%elem_of_difference.
      apply elem_of_dom in Hk as [v Hv].
      unfold row_deleted, bind, getitem, A. simpl. by rewrite Hv. }
    destruct (sorted (dom a ∖ dom b)) as [|k1 l1] eqn:E1; [|done].
    rewrite for_keys_EOF; cycle 1.
    { intros k [Hk _]%elem_of_sorted%elem_of_difference.
      apply elem_of_dom in Hk as [v Hv].
      unfold row_added, bind, getitem, B. simpl. by rewrite Hv. }
    destruct (sorted (dom b ∖ dom a)) as [|k2 l2] eqn:E2; [|done].
    rewrite for_keys_EOF; cycle 1.
    { intros k [[va Hva]%elem_of_dom [vb Hvb]%elem_of_dom]%elem_of_sorted%elem_of_intersection.
      unfold row_common, bind, getitem, A, B. simpl. by rewrite Hva, Hvb. }
    destruct (sorted (dom a ∩ dom b)) as [|k3 l3] eqn:E3; [|done].
    exfalso. apply Hne.
    apply sorted_nil_inv in E1, E2, E3.
    rewrite (key_groups_union (dom a) (dom b)), E1, E2, E3. set_solver.
  - intros autoaccept stdin.
    by destruct (_ShowDiff_empty_dicts ∅ ∅ title autoaccept stdin) as (_ & _ & _ & ?).
Qed.

Lemma _ShowDiff_no_input_witness :
  _ShowDiff (MkDictDiff ex_a ex_b) "Test 1" false [] = ([], Raise EOFError).
Proof.
  apply (_ShowDiff_no_input ex_a ex_b "Test 1").
  intros Heq. assert ("Bob" ∈ dom ex_a ∪ dom ex_b) as Hin.
  { apply elem_of_union. left. apply elem_of_dom. by eexists. }
  rewrite Heq in Hin. by apply not_elem_of_empty in Hin.
Defined.

(** ** The constructor, in full *)

(** X18: the constructor builds an object exactly when each argument is
    omitted, [None] or a dict: a mapping of any other type is refused
    like a scalar, since the test is on the exact type. The first
    argument is tested first: when it is refused the TypeError names it,
    whatever the second argument is. *)
Theorem DictDiff_init_accepts (a b : option pyarg) :
  (is_ok (DictDiff_init a b) = true
   ↔ none_or_dict a = true ∧ none_or_dict b = true)
  ∧ (none_or_dict a = false →
     DictDiff_init a b
     = Raise (TypeError "First argument, a, is required to be None or a dict"))
  ∧ (none_or_dict a = true → none_or_dict b = false →
     DictDiff_init a b
     = Raise (TypeError "Second argument, b, is required to be None or a dict")).
Proof.
  unfold DictDiff_init, none_or_dict.
  destruct a as [[[]| |]|], b as [[[]| |]|]; simpl; repeat split; try done;
    intros []; done.
Qed.

Lemma DictDiff_init_accepts_witness :
  DictDiff_init (Some (ArgMapping ex_a)) (Some (ArgValue (VInt 3)))
  = Raise (TypeError "First argument, a, is required to be None or a dict")
  ∧ DictDiff_init None (Some (ArgMapping ex_b))
    = Raise (TypeError "Second argument, b, is required to be None or a dict").
Proof.
  split.
  - destruct (DictDiff_init_accepts (Some (ArgMapping ex_a))
                (Some (ArgValue (VInt 3)))) as (_ & Hfirst & _).
    apply Hfirst. reflexivity.
  - destruct (DictDiff_init_accepts None (Some (ArgMapping ex_b)))
      as (_ & _ & Hsecond).
    apply Hsecond; reflexivity.
Defined.

Lemma ApplyDiff_flag_of_absent_kind_witness :
  ApplyDiff true true true true 1%positive
    [("d", "Charlie", VStr ""); ("e", "Alice", VInt 15)] {[1%positive := ex_a]}
  = ApplyDiff false true true true 1%positive
      [("d", "Charlie", VStr ""); ("e", "Alice", VInt 15)] {[1%positive := ex_a]}.
Proof.
  destruct (ApplyDiff_flag_of_absent_kind true true true true 1%positive
              [("d", "Charlie", VStr ""); ("e", "Alice", VInt 15)]
              {[1%positive := ex_a]}) as (Hadd & _).
  apply Hadd. intros d Hd.
  apply elem_of_cons in Hd as [->|Hd]; [discriminate|].
  apply elem_of_cons in Hd as [->|Hd]; [discriminate|].
  by apply elem_of_nil in Hd.
Defined.

(** ** [ApplyDiff]: which keys change *)

Lemma instruction_contents_frame aA aD aC aK (c c' : gmap string value) d i :
  instruction_contents aA aD aC aK c d = Ok c' →
  (action d ≠ "k" → ikey d ≠ i) →
  c' !! i = c !! i.
Proof.
  unfold instruction_contents, action, ikey. intros Hstep Hi.
  repeat match type of Hstep with
         | context [String.eqb ?x ?y] => destruct (String.eqb_spec x y)
         | context [negb ?b] => destruct b; simpl in Hstep
         | context [c !! ?k] => destruct (c !! k)
         end; try done; simplify_eq;
    first [done
          | rewrite lookup_delete_ne; [done|apply Hi; congruence]
          | rewrite lookup_insert_ne; [done|apply Hi; congruence]].
Qed.

Lemma for_contents_frame aA aD aC aK diff i : ∀ c c' : gmap string value,
  for_contents aA aD aC aK c diff = Ok c' →
  (∀ d, d ∈ diff → action d ≠ "k" → ikey d ≠ i) →
  c' !! i = c !! i.
Proof.
  induction diff as [|d diff IH]; intros c c'; simpl; [by intros [= ->]|].
  destruct (instruction_contents aA aD aC aK c d) as [c1|e] eqn:Hstep; [|done].
  intros Hfor Hi. rewrite (IH c1 c' Hfor).
  - eapply instruction_contents_frame; [done|]. apply Hi, elem_of_cons. by left.
  - intros d' Hd'. apply Hi, elem_of_cons. by right.
Qed.

(** X19: a call that returns a dict has changed only keys that an Add,
    an Edit or a Delete of the list names: on every other key the dict
    has what the source has. For a key that the list names, the last
    such instruction decides: after an Add or an Edit the key has the
    value of that instruction, after a Delete the key is absent. *)
Theorem ApplyDiff_changes_named_keys aA aD aC aK (h : heap) (src : loc)
    (c c' : gmap string value) diff :
  h !! src = Some c →
  returns_dict (ApplyDiff aA aD aC aK src diff h) c' →
  (∀ i, (∀ d, d ∈ diff → action d ≠ "k" → ikey d ≠ i) → c' !! i = c !! i)
  ∧ (∀ pre l i v suf,
       diff = (pre ++ (l, i, v) :: suf)%list →
       (∀ d, d ∈ suf → action d ≠ "k" → ikey d ≠ i) →
       (l = "a" ∨ l = "e" → c' !! i = Some v) ∧ (l = "d" → c' !! i = None)).
Proof.
  intros Hsrc Hret.
  apply (ApplyDiff_returns_dict _ _ _ _ h src c c' diff Hsrc) in Hret as [_ Hfor].
  split.
  - intros i Hi. by eapply for_contents_frame.
  - intros pre l i v suf -> Hsuf.
    rewrite for_contents_app in Hfor.
    destruct (for_contents aA aD aC aK c pre) as [c1|e]; [|done].
    simpl in Hfor.
    destruct (instruction_contents aA aD aC aK c1 (l, i, v)) as [c2|e] eqn:Hstep;
      [|done].
    rewrite (for_contents_frame _ _ _ _ suf i c2 c' Hfor Hsuf).
    unfold instruction_contents in Hstep. simpl in Hstep.
    split.
    + intros [-> | ->]; simpl in Hstep.
      * destruct (negb aA); [done|]. simplify_eq. by rewrite lookup_insert_eq.
      * destruct (negb aC); [done|]. simplify_eq. by rewrite lookup_insert_eq.
    + intros ->. simpl in Hstep. destruct (negb aD); [done|].
      destruct (c1 !! i); [|done]. simplify_eq. by rewrite lookup_delete_eq.
Qed.

Lemma ApplyDiff_changes_named_keys_witness :
  ex_b !! "Bob" = ex_a !! "Bob".
Proof.
  destruct (ApplyDiff_changes_named_keys true true true true
              {[1%positive := ex_a]} 1%positive ex_a ex_b ex_res) as [Hframe _].
  - vm_compute. reflexivity.
  - exists 2%positive. split; vm_compute; reflexivity.
  - apply Hframe. intros d Hd Hk. unfold ex_res in Hd.
    repeat (apply elem_of_cons in Hd as [->|Hd];
            [first [discriminate | exfalso; by apply Hk]|]).
    by apply elem_of_nil in Hd.
Defined.
